(** * Verification of the chat-transcript code organizer (src/code-organizer.py)

    The development embeds the [CodeOrganizer] class in Rocq and proves the
    properties of its extractor, keyword deriver, classifier, namer and
    materializer.

    Conventions of the embedding.
    - A Python [str] is a [list ascii].  The model is faithful for 7-bit
      ASCII text; the character tests below classify every code above 127
      as caseless, non-word and non-space.
    - The [re] module is embedded as a small backtracking matcher over a
      regular-expression syntax tree, so that each pattern of the source is
      transcribed constructor by constructor.
    - [pathlib.Path] is a flag (anchored at the root or not) and a list of
      components; the file system is a finite set of directories and a
      finite map from paths to the bytes of the files.  Paths are compared
      lexically ([..] and symbolic links are not resolved), as on a POSIX
      system.
    - The operations on the file system follow the path component by
      component as the kernel does, and raise what Python raises for
      ENOENT, ENOTDIR, EISDIR, EEXIST and ENAMETOOLONG, [ValueError] for a
      path that holds a NUL character and [UnicodeDecodeError] for bytes
      that the locale cannot decode.  Access rights, quotas and devices
      are not part of the state: every directory can be read and written.
    - Methods that act on the file system run in the monad [io]: they
      return the state they leave behind together with a value or an
      uncaught exception.
    - A dictionary is the list of its items in insertion order, which is
      the order in which Python iterates over it.
    - [hashlib.md5], the iteration order of a Python [set], the limits
      NAME_MAX and PATH_MAX of the file system and the decoder of the
      locale are parameters of the development (class [PyRuntime]). *)

From Stdlib Require Import Ascii String List Arith Wf_nat Lia.
From stdpp Require Import base option list gmap strings pretty.
Import ListNotations.

Local Open Scope char_scope.

(** ** Characters and Python string methods *)

Abbreviation str := (list ascii) (only parsing).

(** [chars "abc"] is the Python literal ['abc']. *)
Definition chars (s : string) : str := list_ascii_of_string s.

Definition code (c : ascii) : N := N_of_ascii c.

Definition in_range (lo hi c : ascii) : bool :=
  (code lo <=? code c)%N && (code c <=? code hi)%N.

Definition is_upper (c : ascii) : bool := in_range "A" "Z" c.
Definition is_lower (c : ascii) : bool := in_range "a" "z" c.
Definition is_alpha (c : ascii) : bool := is_upper c || is_lower c.
Definition is_digit (c : ascii) : bool := in_range "0" "9" c.

(** [\w]: letters, digits and the underscore. *)
Definition is_word (c : ascii) : bool :=
  is_alpha c || is_digit c || bool_decide (c = "_").

(** [str.isspace] on one character: TAB, LF, VT, FF, CR, the four
    separators FS, GS, RS, US (codes 28 to 31) and the space. *)
Definition is_space (c : ascii) : bool :=
  in_range "009" "013" c || in_range "028" "031" c || bool_decide (c = " ").

Definition char_lower (c : ascii) : ascii :=
  if is_upper c then ascii_of_N (code c + 32) else c.

Definition char_upper (c : ascii) : ascii :=
  if is_lower c then ascii_of_N (code c - 32) else c.

(** [s.lower()] *)
Definition lower (s : str) : str := map char_lower s.

(** [s.isupper()]: at least one cased character and no lowercase one. *)
Definition isupper (s : str) : bool :=
  existsb is_upper s && negb (existsb is_lower s).

Fixpoint lstrip (s : str) : str :=
  match s with
  | c :: s' => if is_space c then lstrip s' else s
  | [] => []
  end.

Definition rstrip (s : str) : str := reverse (lstrip (reverse s)).

(** [s.strip()] *)
Definition strip (s : str) : str := rstrip (lstrip s).

(** [s.split(sep)] for a one-character separator: never the empty list. *)
Fixpoint split (sep : ascii) (s : str) : list str :=
  match s with
  | [] => [[]]
  | c :: s' =>
      if bool_decide (c = sep) then [] :: split sep s'
      else match split sep s' with
           | h :: t => (c :: h) :: t
           | [] => [[c]]
           end
  end.

(** [sep.join(l)] *)
Fixpoint join (sep : str) (l : list str) : str :=
  match l with
  | [] => []
  | [x] => x
  | x :: l' => x ++ sep ++ join sep l'
  end.

Fixpoint starts_with (p s : str) : bool :=
  match p, s with
  | [], _ => true
  | a :: p', b :: s' => bool_decide (b = a) && starts_with p' s'
  | _ :: _, [] => false
  end.

(** [sub in s] *)
Fixpoint contains (sub s : str) : bool :=
  starts_with sub s ||
  match s with
  | [] => false
  | _ :: s' => contains sub s'
  end.

(** [str(n)] for a non-negative integer. *)
Definition str_of_nat (n : nat) : str := chars (pretty n).

(** ** The [re] module: a backtracking matcher *)

Module Re.

(** One-character matchers. *)
Inductive atom :=
  | Lit (c : ascii)                        (* a literal character *)
  | Dot                                    (* [.] *)
  | Word                                   (* [\w] *)
  | Class (ranges : list (ascii * ascii)). (* [[a-bc-d...]] *)

Inductive regex :=
  | Eps
  | Atom (a : atom)
  | Seq (r1 r2 : regex)
  | Alt (r1 r2 : regex)                    (* [r1|r2], left first *)
  | Opt (r : regex)                        (* [r?], greedy *)
  | Rep (a : atom) (min : nat) (greedy : bool) (* [a{min,}] or [a{min,}?] *)
  | WordB                                  (* [\b] *)
  | Group (name : string) (r : regex).     (* a capturing group *)

Record flags := { IGNORECASE : bool; DOTALL : bool }.

Definition no_flags : flags := {| IGNORECASE := false; DOTALL := false |}.

(** Groups that took part in the match, most recent first. *)
Abbreviation captures := (list (string * list ascii)) (only parsing).

Fixpoint group (name : string) (caps : captures) : option str :=
  match caps with
  | [] => None
  | (n, v) :: caps' => if bool_decide (n = name) then Some v else group name caps'
  end.

Definition in_ranges (ranges : list (ascii * ascii)) (c : ascii) : bool :=
  existsb (fun r => in_range (fst r) (snd r) c) ranges.

Definition atom_matches (fl : flags) (a : atom) (c : ascii) : bool :=
  match a with
  | Lit l =>
      if IGNORECASE fl then bool_decide (char_lower c = char_lower l)
      else bool_decide (c = l)
  | Dot => DOTALL fl || negb (bool_decide (c = "010"))
  | Word => is_word c
  | Class ranges =>
      if IGNORECASE fl
      then in_ranges ranges c || in_ranges ranges (char_lower c)
           || in_ranges ranges (char_upper c)
      else in_ranges ranges c
  end.

Definition word_before (prev : option ascii) : bool :=
  match prev with Some c => is_word c | None => false end.

Definition word_after (s : str) : bool :=
  match s with c :: _ => is_word c | [] => false end.

(** [\b] holds between a word character and a non-word character (or an
    end of the text). *)
Definition at_boundary (prev : option ascii) (s : str) : bool :=
  xorb (word_before prev) (word_after s).

Section Engine.
Context {A : Type}.

(** Greedy repetition: consume as long as possible, give back one
    character at a time, never fewer than [min]. *)
Fixpoint rep_greedy (ok : ascii → bool) (min : nat) (prev : option ascii)
    (s : str) (k : option ascii → str → option A) : option A :=
  let stop := match min with 0 => k prev s | S _ => None end in
  match s with
  | c :: s' =>
      if ok c then
        match rep_greedy ok (pred min) (Some c) s' k with
        | Some x => Some x
        | None => stop
        end
      else stop
  | [] => stop
  end.

(** Lazy repetition: stop as soon as the continuation succeeds. *)
Fixpoint rep_lazy (ok : ascii → bool) (min : nat) (prev : option ascii)
    (s : str) (k : option ascii → str → option A) : option A :=
  let more :=
    match s with
    | c :: s' => if ok c then rep_lazy ok (pred min) (Some c) s' k else None
    | [] => None
    end in
  match min with
  | 0 =>
      match k prev s with
      | Some x => Some x
      | None => more
      end
  | S _ => more
  end.

(** [exec fl r prev s caps k] matches [r] at the head of [s], the
    character before [s] being [prev], and passes what is left to the
    continuation [k]; the first success in priority order is returned. *)
Fixpoint exec (fl : flags) (r : regex) (prev : option ascii) (s : str)
    (caps : captures)
    (k : option ascii → str → captures → option A) : option A :=
  match r with
  | Eps => k prev s caps
  | Atom a =>
      match s with
      | c :: s' => if atom_matches fl a c then k (Some c) s' caps else None
      | [] => None
      end
  | Seq r1 r2 =>
      exec fl r1 prev s caps (fun p s' caps' => exec fl r2 p s' caps' k)
  | Alt r1 r2 =>
      match exec fl r1 prev s caps k with
      | Some x => Some x
      | None => exec fl r2 prev s caps k
      end
  | Opt r1 =>
      match exec fl r1 prev s caps k with
      | Some x => Some x
      | None => k prev s caps
      end
  | Rep a min greedy =>
      (if greedy then rep_greedy else rep_lazy)
        (atom_matches fl a) min prev s (fun p s' => k p s' caps)
  | WordB => if at_boundary prev s then k prev s caps else None
  | Group name r1 =>
      exec fl r1 prev s caps
        (fun p s' caps' =>
           k p s' ((name, take (length s - length s') s) :: caps'))
  end.
End Engine.

(** A literal string. *)
Fixpoint Str (s : str) : regex :=
  match s with
  | [] => Eps
  | [c] => Atom (Lit c)
  | c :: s' => Seq (Atom (Lit c)) (Str s')
  end.

(** A match anchored at the current position: the text left after the
    match and the captured groups. *)
Definition match_here (fl : flags) (r : regex) (prev : option ascii)
    (s : str) : option (str * captures) :=
  exec fl r prev s [] (fun _ s' caps => Some (s', caps)).

(** Left-to-right scan for non-overlapping matches, for a matcher [m]
    anchored at the current position.  [skip] counts the characters still
    covered by the previous match.  None of the patterns of the program
    matches the empty string. *)
Fixpoint scan_with (m : option ascii → str → option (str * captures))
    (prev : option ascii) (s : str) (skip : nat) : list captures :=
  match s with
  | [] =>
      match skip, m prev [] with
      | 0, Some (_, caps) => [caps]
      | _, _ => []
      end
  | c :: s' =>
      match skip with
      | S n => scan_with m (Some c) s' n
      | 0 =>
          match m prev s with
          | Some (rest, caps) =>
              caps :: scan_with m (Some c) s' (length s - length rest - 1)
          | None => scan_with m (Some c) s' 0
          end
      end
  end.

(** [re.finditer(r, s)] as the list of the matches' groups. *)
Definition finditer (fl : flags) (r : regex) (s : str) : list captures :=
  scan_with (match_here fl r) None s 0.

(** [re.findall(r, s)] for a pattern with exactly one group, here
    named ["1"]: the list of that group's texts. *)
Definition findall (fl : flags) (r : regex) (s : str) : list str :=
  omap (group "1") (finditer fl r s).

(** [re.search(r, s)] as a truth value. *)
Fixpoint search_from (fl : flags) (r : regex) (prev : option ascii)
    (s : str) : bool :=
  match match_here fl r prev s with
  | Some _ => true
  | None =>
      match s with
      | [] => false
      | c :: s' => search_from fl r (Some c) s'
      end
  end.

Definition search (fl : flags) (r : regex) (s : str) : bool :=
  search_from fl r None s.

End Re.

(** ** Exceptions and outcomes *)

(** [OSError] stands for the plain [OSError] that Python raises for
    ENAMETOOLONG; the other errors of the file system have a class of
    their own. *)
Inductive exn :=
  | IndexError
  | FileExistsError
  | FileNotFoundError
  | IsADirectoryError
  | NotADirectoryError
  | OSError
  | ValueError
  | UnicodeDecodeError.

(** The outcome of running a method: a value, an uncaught exception, or
    [Diverge] when the fuel the model gives to a [while] loop runs out. *)
Inductive outcome (A : Type) :=
  | Return (a : A)
  | Raise (e : exn)
  | Diverge.
Arguments Return {A} a.
Arguments Raise {A} e.
Arguments Diverge {A}.

Global Instance outcome_bind : MBind outcome := fun A B f m =>
  match m with
  | Return a => f a
  | Raise e => Raise e
  | Diverge => Diverge
  end.

(** ** The runtime *)

(** A byte of 7-bit ASCII. *)
Definition is_ascii (c : ascii) : bool := (code c <? 128)%N.

(** What the program takes from the Python runtime and from the
    operating system: the MD5 digest in hexadecimal, the order in which
    [list(set(l))] yields the distinct elements of [l], the longest file
    name and the longest path that the file system accepts, and the
    decoder of the locale, which maps ASCII bytes to themselves. *)
Class PyRuntime := {
  md5_hexdigest : str → str;
  set_to_list : list str → list str;
  set_to_list_NoDup : ∀ l, NoDup (set_to_list l);
  set_to_list_elem : ∀ l x, x ∈ set_to_list l ↔ x ∈ l;
  NAME_MAX : nat;
  PATH_MAX : nat;
  locale_decode : list ascii → option str;
  locale_decode_ascii :
    ∀ bytes, forallb is_ascii bytes = true → locale_decode bytes = Some bytes
}.

(** ** [pathlib] and the file system *)

(** A path: whether it is anchored at the root, and its components. *)
Abbreviation Path := (bool * list (list ascii))%type (only parsing).

(** The components of a path written as a string: empty components and
    [.] are dropped, as [pathlib] does when it parses. *)
Definition components (s : str) : list str :=
  filter (fun c => c ≠ [] ∧ c ≠ ["."]) (split "/" s).

(** [Path(s)] *)
Definition path_of (s : str) : Path := (starts_with ["/"] s, components s).

(** [p / s]: an anchored right operand replaces the left one. *)
Definition path_div (p : Path) (s : str) : Path :=
  if starts_with ["/"] s then (true, components s)
  else (p.1, p.2 ++ components s).

(** [p.parent] *)
Definition parent (p : Path) : Path := (p.1, removelast p.2).

(** [str(p)], the string that is handed to the operating system. *)
Definition path_str (p : Path) : str :=
  match p.2 with
  | [] => if p.1 then ["/"] else ["."]
  | _ :: _ => (if p.1 then ["/"] else []) ++ join ["/"] p.2
  end.

Record FS := { dirs : gset Path; files : gmap Path str }.

(** The root and the current directory always exist. *)
Definition is_dir (fs : FS) (p : Path) : bool :=
  bool_decide (p.2 = []) || bool_decide (p ∈ dirs fs).

Definition is_file (fs : FS) (p : Path) : bool :=
  negb (bool_decide (p.2 = [])) && bool_decide (p ∈ dom (files fs)).

(** [p.exists()].  A name that the file system cannot hold does not
    exist; the versions of [pathlib] in which [exists] raises [OSError]
    for such a name raise it where [open] raises it below, in the same
    state. *)
Definition path_exists (fs : FS) (p : Path) : bool := is_dir fs p || is_file fs p.

(** Everything that exists below the root and the current directory. *)
Definition entries (fs : FS) : gset Path := dirs fs ∪ dom (files fs).

Definition add_dir (p : Path) (fs : FS) : FS :=
  {| dirs := {[ p ]} ∪ dirs fs; files := files fs |}.

(** Code that acts on the file system: it leaves a state behind, also
    when it ends with an exception. *)
Definition io (A : Type) : Type := FS → FS * outcome A.

Global Instance io_ret : MRet io := fun A a fs => (fs, Return a).

Global Instance io_bind : MBind io := fun A B f m fs =>
  match m fs with
  | (fs', Return a) => f a fs'
  | (fs', Raise e) => (fs', Raise e)
  | (fs', Diverge) => (fs', Diverge)
  end.

(** A computation that does not touch the file system. *)
Definition pure_outcome {A} (o : outcome A) : io A := fun fs => (fs, o).

(** A computation that reads the file system. *)
Definition inspect {A} (f : FS → outcome A) : io A := fun fs => (fs, f fs).

(** An operation of the file system: all or nothing. *)
Definition update (f : FS → outcome FS) : io () := fun fs =>
  match f fs with
  | Return fs' => (fs', Return ())
  | Raise e => (fs, Raise e)
  | Diverge => (fs, Diverge)
  end.

(** What a path leads to. *)
Inductive entry :=
  | Directory
  | RegularFile
  | Missing.

(** The text mode of [open]: on reading, [CR LF] and a lone [CR] become
    [LF]. *)
Fixpoint universal_newlines (s : str) : str :=
  match s with
  | [] => []
  | c :: s' =>
      if bool_decide (c = "013") then
        "010" :: match s' with
                 | d :: s'' =>
                     if bool_decide (d = "010") then universal_newlines s''
                     else universal_newlines s'
                 | [] => []
                 end
      else c :: universal_newlines s'
  end.

(** A path string that ends with [/] or [/.] names a directory. *)
Definition wants_dir (name : str) : bool :=
  match last (split "/" name) with
  | Some c => bool_decide (c = []) || bool_decide (c = ["."])
  | None => false
  end.

Section FileSystem.
Context `{PyRuntime}.

(** The walk of the kernel along the components [comps] below the
    directory [(a, prefix)]: the first component that cannot be followed
    decides the error. *)
Fixpoint resolve (fs : FS) (a : bool) (prefix comps : list str)
    : exn + entry :=
  match comps with
  | [] => inr Directory
  | c :: rest =>
      let p : Path := (a, prefix ++ [c]) in
      if (NAME_MAX <? length c)%nat then inl OSError
      else if bool_decide (p ∈ dirs fs) then resolve fs a (prefix ++ [c]) rest
      else if bool_decide (p ∈ dom (files fs)) then
        match rest with
        | [] => inr RegularFile
        | _ :: _ => inl NotADirectoryError
        end
      else
        match rest with
        | [] => inr Missing
        | _ :: _ => inl FileNotFoundError
        end
  end.

(** The directories that [mkdir(parents=True, exist_ok=True)] creates
    along [comps] below [(a, prefix)]: every missing directory is
    created, from the top, until a component is a file or is too long;
    the directories created before the failure stay. *)
Fixpoint mkdir_walk (a : bool) (prefix comps : list str) (fs : FS)
    : FS * outcome () :=
  match comps with
  | [] => (fs, Return ())
  | c :: rest =>
      let p : Path := (a, prefix ++ [c]) in
      if (NAME_MAX <? length c)%nat then (fs, Raise OSError)
      else if bool_decide (p ∈ dirs fs) then mkdir_walk a (prefix ++ [c]) rest fs
      else if bool_decide (p ∈ dom (files fs)) then
        (fs, Raise match rest with
                   | [] => FileExistsError
                   | _ :: _ => NotADirectoryError
                   end)
      else mkdir_walk a (prefix ++ [c]) rest (add_dir p fs)
  end.

(** [p.mkdir(parents=True, exist_ok=True)] *)
Definition mkdir_parents (p : Path) : io () := fun fs =>
  if bool_decide ("000" ∈ concat p.2) then (fs, Raise ValueError)
  else if (PATH_MAX <=? length (path_str p))%nat then (fs, Raise OSError)
  else mkdir_walk p.1 [] p.2 fs.

(** The names of [p] and its string are within the limits of the file
    system. *)
Definition fits (p : Path) : bool :=
  forallb (fun c => (length c <=? NAME_MAX)%nat) p.2 &&
  (length (path_str p) <? PATH_MAX)%nat.

(** [with open(p, 'w') as f: f.write(data)].  The bytes written are
    the characters of [data]: ASCII text is its own encoding, and on a
    POSIX system a newline is written as it is. *)
Definition write_text (p : Path) (data : str) (fs : FS) : outcome FS :=
  if bool_decide ("000" ∈ concat p.2) then Raise ValueError
  else if (PATH_MAX <=? length (path_str p))%nat then Raise OSError
  else
    match resolve fs p.1 [] p.2 with
    | inl e => Raise e
    | inr Directory => Raise IsADirectoryError
    | inr _ =>
        Return {| dirs := dirs fs; files := <[ p := data ]> (files fs) |}
    end.

(** [with open(name, 'r') as f: f.read()]: the string is handed to the
    operating system as it is, the bytes of the file are decoded by the
    locale and the newlines translated. *)
Definition read_text (name : str) (fs : FS) : outcome str :=
  if bool_decide (name = []) then Raise FileNotFoundError
  else if bool_decide ("000" ∈ name) then Raise ValueError
  else if (PATH_MAX <=? length name)%nat then Raise OSError
  else
    let p := path_of name in
    match resolve fs p.1 [] p.2 with
    | inl e => Raise e
    | inr Directory => Raise IsADirectoryError
    | inr Missing => Raise FileNotFoundError
    | inr RegularFile =>
        if wants_dir name then Raise NotADirectoryError
        else
          match files fs !! p with
          | Some bytes =>
              match locale_decode bytes with
              | Some text => Return (universal_newlines text)
              | None => Raise UnicodeDecodeError
              end
          | None => Raise FileNotFoundError
          end
    end.

End FileSystem.

(** ** The organizer *)

Import Re.

(** A code block: the dictionary built by [extract_code_blocks]. *)
Record Block := {
  language : str;
  content : str;
  hash : str;
  keywords : list str
}.

Record CodeOrganizer := {
  output_dir : Path;
  file_registry : list (str * list str);
  component_patterns : list (str * regex)
}.

Fixpoint alts (l : list regex) : regex :=
  match l with
  | [] => Eps
  | [r] => r
  | r :: l' => Alt r (alts l')
  end.

(** [\b(a|b|...)\b] *)
Definition whole_word (l : list regex) : regex :=
  Seq WordB (Seq (Group "1" (alts l)) WordB).

(** [w] followed by [s?] *)
Definition plural (w : string) : regex :=
  Seq (Str (chars w)) (Opt (Atom (Lit "s"))).

Definition word (w : string) : regex := Str (chars w).

(** [__init__] *)
Definition init (output_dir : str) : CodeOrganizer := {|
  output_dir := path_of output_dir;
  file_registry := [];
  component_patterns := [
    (chars "utils", whole_word [plural "util"; plural "helper"; word "common"]);
    (chars "models", whole_word [plural "model"; plural "schema"; plural "entitie"]);
    (chars "services", whole_word [word "service"; word "api"; word "client"; word "adapter"]);
    (chars "tests", whole_word [word "test"; word "spec"]);
    (chars "config", whole_word [word "config"; plural "setting"])
  ]
|}.

(** The default organizer, [CodeOrganizer()]. *)
Definition default_organizer : CodeOrganizer := init (chars "organized_code").

(** The pattern of [extract_code_blocks], compiled with [re.DOTALL]. *)
Definition code_block_re : regex :=
  Seq (Str (chars "```"))
   (Seq (Opt (Group "lang" (Rep Word 1 true)))
    (Seq (Atom (Lit "010"))
     (Seq (Group "code" (Rep Dot 0 false))
          (Str (chars "```"))))).

Definition dotall : flags := {| IGNORECASE := false; DOTALL := true |}.
Definition ignorecase : flags := {| IGNORECASE := true; DOTALL := false |}.

(** The pattern of [extract_keywords]. *)
Definition keyword_re : regex :=
  Seq WordB
   (Seq (Group "1" (Rep (Class [("A", "Z"); ("a", "z"); ("_", "_")]) 3 true))
        WordB).

Section Organizer.
Context `{PyRuntime}.

(** [extract_keywords] *)
Definition extract_keywords (code : str) : list str :=
  let keywords := findall no_flags keyword_re code in
  set_to_list (map lower (filter (fun kw => isupper kw = false) keywords)).

(** The dictionary appended for a match whose groups are [lang] (absent
    when the tag is missing) and [code]. *)
Definition make_block (lang : option str) (code : str) : Block :=
  let lang :=
    match lang with
    | Some (c :: l) => c :: l
    | _ => chars "txt"
    end in
  let code := strip code in
  {| language := lower lang;
     content := code;
     hash := md5_hexdigest code;
     keywords := extract_keywords code |}.

Definition block_of_match (m : captures) : Block :=
  make_block (group "lang" m) (default [] (group "code" m)).

(** [extract_code_blocks], on the text read from the chat file. *)
Definition extract_code_blocks (content : str) : list Block :=
  map block_of_match (finditer dotall code_block_re content).

(** The test of the hint loop: some ['#' + folder] occurs in the
    lowercased line. *)
Definition has_hint (self : CodeOrganizer) (line : str) : bool :=
  existsb (fun folder => contains ("#" :: folder) (lower line))
          (map fst (component_patterns self)).

(** The first loop of [determine_category]: [None] when no line has a
    hint. *)
Fixpoint hint_scan (self : CodeOrganizer) (lines : list str)
    : option (outcome str) :=
  match lines with
  | [] => None
  | line :: rest =>
      if has_hint self line then
        Some (match split "#" line !! 1%nat with
              | Some t => Return (strip t)
              | None => Raise IndexError
              end)
      else hint_scan self rest
  end.

(** The second loop of [determine_category]. *)
Fixpoint pattern_scan (patterns : list (str * regex)) (text : str)
    : option str :=
  match patterns with
  | [] => None
  | (category, pattern) :: rest =>
      if search ignorecase pattern text then Some category
      else pattern_scan rest text
  end.

(** [determine_category] *)
Definition determine_category (self : CodeOrganizer) (block : Block)
    : outcome str :=
  match hint_scan self (split "010" (content block)) with
  | Some r => r
  | None =>
      match pattern_scan (component_patterns self)
              (join [" "] (keywords block)) with
      | Some category => Return category
      | None => Return (chars "uncategorized/" ++ language block)
      end
  end.

(** [get_extension] *)
Definition extensions : list (str * str) := [
  (chars "python", chars ".py");
  (chars "javascript", chars ".js");
  (chars "typescript", chars ".ts");
  (chars "java", chars ".java");
  (chars "csharp", chars ".cs");
  (chars "txt", chars ".txt")
].

Fixpoint dict_get (d : list (str * str)) (key : str) : option str :=
  match d with
  | [] => None
  | (k, v) :: d' => if bool_decide (k = key) then Some v else dict_get d' key
  end.

Definition get_extension (lang : str) : str :=
  default ("." :: lang) (dict_get extensions lang).

(** ['_'.join(block['keywords'][:3]) or 'code'] *)
Definition base_name (block : Block) : str :=
  match join ["_"] (take 3 (keywords block)) with
  | [] => chars "code"
  | c :: j => c :: j
  end.

(** The name tried after [base_name + ext] for the counter [n]. *)
Definition numbered (base ext : str) (n : nat) : str :=
  base ++ "_" :: str_of_nat n ++ ext.

(** The [while] loop of [generate_filename], with the fuel of the
    model: [None] when the loop is still running after [fuel] tests. *)
Fixpoint probe (fs : FS) (dest_dir : Path) (base ext : str) (fuel : nat)
    (filename : str) (counter : nat) : option str :=
  match fuel with
  | 0 => None
  | S fuel' =>
      if path_exists fs (path_div dest_dir filename)
      then probe fs dest_dir base ext fuel' (numbered base ext counter) (S counter)
      else Some filename
  end.

Definition probe_fuel (fs : FS) : nat := 2 + size (dirs fs) + size (files fs).

(** [generate_filename] *)
Definition generate_filename (fs : FS) (block : Block) (dest_dir : Path)
    : option str :=
  let base := base_name block in
  let ext := get_extension (language block) in
  probe fs dest_dir base ext (probe_fuel fs) (base ++ ext) 1.

(** The body of the loop of [organize_code]. *)
Definition organize_block (self : CodeOrganizer) (block : Block) : io () :=
  directory ← pure_outcome (determine_category self block);
  let dest_dir := path_div (output_dir self) directory in
  mkdir_parents dest_dir;;
  filename ← inspect (fun fs =>
    match generate_filename fs block dest_dir with
    | Some filename => Return filename
    | None => Diverge
    end);
  update (write_text (path_div dest_dir filename) (content block)).

(** The iteration of the loop on [block] that starts in [fs] ends with
    the exception [e] in the state [fs']: creating the destination
    directory fails, or opening the file does. *)
Definition iteration_fails (self : CodeOrganizer) (block : Block)
    (fs : FS) (e : exn) (fs' : FS) : Prop :=
  ∃ directory,
    determine_category self block = Return directory ∧
    let dest_dir := path_div (output_dir self) directory in
    mkdir_parents dest_dir fs = (fs', Raise e) ∨
    ∃ filename,
      mkdir_parents dest_dir fs = (fs', Return ()) ∧
      generate_filename fs' block dest_dir = Some filename ∧
      write_text (path_div dest_dir filename) (content block) fs' = Raise e.

(** [organize_code] *)
Fixpoint organize_code (self : CodeOrganizer) (code_blocks : list Block)
    : io () :=
  match code_blocks with
  | [] => mret ()
  | block :: rest => organize_block self block;; organize_code self rest
  end.

(** [process_chat] *)
Definition process_chat (self : CodeOrganizer) (chat_file : str) : io () :=
  content ← inspect (read_text chat_file);
  organize_code self (extract_code_blocks content).

End Organizer.

(** A runtime in which a set lists its elements in order of first
    insertion, the digest is left empty, the limits are those of Linux
    and the locale is ASCII; it shows that the class is inhabited and
    serves to run the program on concrete inputs. *)
Definition first_seen (l : list str) : list str :=
  reverse (remove_dups (reverse l)).

Program Definition sample_runtime : PyRuntime := {|
  md5_hexdigest := fun _ => [];
  set_to_list := first_seen;
  NAME_MAX := 255;
  PATH_MAX := 4096;
  locale_decode := fun bytes => if forallb is_ascii bytes then Some bytes else None
|}.
Next Obligation.
  intros l. unfold first_seen. rewrite reverse_Permutation.
  apply NoDup_remove_dups.
Qed.
Next Obligation.
  intros l x. unfold first_seen.
  by rewrite elem_of_reverse, elem_of_remove_dups, elem_of_reverse.
Qed.
Next Obligation. intros bytes Hb. simpl. by rewrite Hb. Qed.

(** ** Direct descriptions of the two scanning patterns

    The functions below say in plain list terms what the matcher does on
    [code_block_re] and [keyword_re]; they are proved equal to the matcher
    and carry the proofs about the extractor and the keyword deriver. *)

(** The longest prefix of [s] whose characters satisfy [ok], and the rest. *)
Fixpoint run (ok : ascii → bool) (s : str) : str :=
  match s with
  | c :: s' => if ok c then c :: run ok s' else []
  | [] => []
  end.

Fixpoint after (ok : ascii → bool) (s : str) : str :=
  match s with
  | c :: s' => if ok c then after ok s' else s
  | [] => []
  end.

(** The character before the position reached after reading [w]. *)
Definition last_char (prev : option ascii) (w : str) : option ascii :=
  match last w with
  | Some c => Some c
  | None => prev
  end.

Definition fence : str := chars "```".

(** The part of [code_block_re] after the language tag. *)
Definition body_re : regex :=
  Seq (Atom (Lit "010")) (Seq (Group "code" (Rep Dot 0 false)) (Str fence)).

(** The text up to the first closing fence, and the text after it. *)
Fixpoint find_close (s : str) : option (str * str) :=
  if starts_with fence s then Some ([], drop 3 s)
  else match s with
       | [] => None
       | c :: s' =>
           match find_close s' with
           | Some (body, rest) => Some (c :: body, rest)
           | None => None
           end
       end.

(** The body of a region whose language tag ends at the head of [s]: a
    newline, then the text up to the closing fence. *)
Definition body_at (s : str) : option (str * str) :=
  match s with
  | c :: s3 => if bool_decide (c = "010") then find_close s3 else None
  | [] => None
  end.

(** A fenced region starting at the head of [s]: the language tag (empty
    when there is none), the body and the text after the region. *)
Definition fence_at (s : str) : option (str * str * str) :=
  if starts_with fence s then
    let s1 := drop 3 s in
    match body_at (after is_word s1) with
    | Some (body, rest) => Some (run is_word s1, body, rest)
    | None => None
    end
  else None.

Definition fence_captures (lang body : str) : captures :=
  ("code"%string, body) ::
  match lang with
  | [] => []
  | _ :: _ => [("lang"%string, lang)]
  end.

Definition fence_match (s : str) : option (str * captures) :=
  match fence_at s with
  | Some (lang, body, rest) => Some (rest, fence_captures lang body)
  | None => None
  end.

(** The part of a numbered file name that holds the counter. *)
Definition counter_part (n : nat) : str := "_" :: str_of_nat n.

(** The names that [generate_filename] tries, in order. *)
Definition candidate (base ext : str) (n : nat) : str :=
  match n with
  | 0 => base ++ ext
  | S _ => base ++ "_" :: str_of_nat n ++ ext
  end.

(** The number of underscores of a text. *)
Definition underscores (s : list ascii) : nat :=
  length (filter (fun c => c = "_") s).

(** The first position, from the head of [s] on, at which [k] succeeds. *)
Fixpoint first_success {A} (prev : option ascii) (s : str)
    (k : option ascii → str → option A) : option A :=
  match k prev s with
  | Some x => Some x
  | None =>
      match s with
      | c :: s' => first_success (Some c) s' k
      | [] => None
      end
  end.

(** [[A-Za-z_]] *)
Definition is_ident (c : ascii) : bool := is_alpha c || bool_decide (c = "_").

(** An identifier-like token starting at the head of [s]. *)
Definition keyword_at (prev : option ascii) (s : str) : option (str * str) :=
  let w := run is_ident s in
  let rest := after is_ident s in
  if at_boundary prev s && (3 <=? length w)%nat && at_boundary (last_char prev w) rest
  then Some (w, rest)
  else None.

Definition keyword_match (prev : option ascii) (s : str)
    : option (str * captures) :=
  match keyword_at prev s with
  | Some (w, rest) => Some (rest, [("1"%string, w)])
  | None => None
  end.

(** The words found by the scan for keywords, from a position on. *)
Definition found (prev : option ascii) (s : list ascii) (skip : nat)
    : list (list ascii) :=
  omap (group "1") (scan_with keyword_match prev s skip).

(** ** Transcripts

    A transcript seen as its author wrote it: stretches of prose, each
    followed by a fenced region that is either closed by a fence or left
    unterminated. *)

Definition opening_at (s : str) : bool :=
  starts_with fence s &&
  bool_decide (head (after is_word (drop 3 s)) = Some "010").

(** Some opening delimiter (a fence, an optional tag, a newline) occurs
    in [s]. *)
Fixpoint has_opening (s : str) : bool :=
  opening_at s ||
  match s with
  | [] => false
  | _ :: s' => has_opening s'
  end.

(** A body that its closing fence ends: no fence inside, and no backtick
    running into the closing fence. *)
Definition well_formed_body (body : str) : Prop :=
  contains fence body = false ∧ last body ≠ Some "`".

Record segment := {
  prose : str;
  tag : str;
  body : str;
  closed : bool
}.

Definition render_segment (g : segment) : str :=
  prose g ++ fence ++ tag g ++ "010" :: body g ++ (if closed g then fence else []).

Definition valid_segment (g : segment) : Prop :=
  has_opening (prose g) = false ∧
  Forall (fun c => is_word c = true) (tag g) ∧
  if closed g then well_formed_body (body g)
  else contains fence (body g) = false.

Definition transcript (segs : list segment) (tail : str) : str :=
  concat (map render_segment segs) ++ tail.

(** Every unterminated region is the last thing in the transcript. *)
Fixpoint unterminated_last (segs : list segment) (tail : str) : bool :=
  match segs with
  | [] => true
  | g :: rest =>
      (closed g ||
       match rest, tail with
       | [], [] => true
       | _, _ => false
       end) && unterminated_last rest tail
  end.

(** A complete fenced region, and the transcripts that contain one. *)
Definition fenced_region (lang body : str) : str :=
  fence ++ lang ++ "010" :: body ++ fence.

Definition contains_region (t : str) : Prop :=
  ∃ pre lang body post,
    Forall (fun c => is_word c = true) lang ∧
    t = pre ++ fenced_region lang body ++ post.

Section Expected.
Context `{PyRuntime}.

Definition segment_block (g : segment) : Block :=
  make_block (match tag g with [] => None | _ :: _ => Some (tag g) end) (body g).

(** The blocks of the closed regions, in document order. *)
Definition expected_blocks (segs : list segment) : list Block :=
  map segment_block (filter (fun g => closed g = true) segs).
End Expected.

(** ** The keyword deriver as the specification words it

    A token of a text is an occurrence of letters and underscores, at
    least three of them, with a word boundary on either side. *)

Definition is_token (text t : list ascii) : Prop :=
  ∃ pre post,
    text = pre ++ t ++ post ∧
    Forall (fun c => is_ident c = true) t ∧
    3 ≤ length t ∧
    word_before (last pre) = false ∧
    word_after post = false.

(** A token written entirely in upper case: it has a letter, and none of
    its letters is in lower case. *)
Definition entirely_uppercase (t : list ascii) : Prop :=
  (∃ c, c ∈ t ∧ is_upper c = true) ∧ ∀ c, c ∈ t → is_lower c = false.

(** ** The entry point and auxiliary notions *)

(** The script run as a program:
    [organizer = CodeOrganizer(); organizer.process_chat("chat_history.txt")] *)
Definition main `{PyRuntime} : io () :=
  process_chat default_organizer (chars "chat_history.txt").

(** The characters of the file names that the program makes up for the
    blocks it extracts. *)
Definition name_char (c : ascii) : bool := is_word c || bool_decide (c = ".").

(** The texts that a pattern without repetition and without [\b]
    matches, letter case apart: the literal strings it is made of. *)
Fixpoint words_of (r : regex) : list (list ascii) :=
  match r with
  | Eps => [[]]
  | Atom (Lit c) => [[c]]
  | Atom _ => []
  | Seq r1 r2 =>
      flat_map (fun w1 => map (fun w2 => w1 ++ w2) (words_of r2)) (words_of r1)
  | Alt r1 r2 => words_of r1 ++ words_of r2
  | Opt r1 => words_of r1 ++ [[]]
  | Group _ r1 => words_of r1
  | Rep _ _ _ => []
  | WordB => []
  end.

(** The patterns made of literals, sequences, alternatives, options and
    groups. *)
Fixpoint plain (r : regex) : bool :=
  match r with
  | Eps => true
  | Atom (Lit _) => true
  | Atom _ => false
  | Seq r1 r2 => plain r1 && plain r2
  | Alt r1 r2 => plain r1 && plain r2
  | Opt r1 => plain r1
  | Group _ r1 => plain r1
  | Rep _ _ _ => false
  | WordB => false
  end.

(** [u] is [w] read by the matcher, character by character. *)
Definition same_word (fl : flags) (u w : list ascii) : Prop :=
  Forall2 (fun c l => atom_matches fl (Lit l) c = true) u w.

(** The alternatives of the five patterns of [__init__], and the words
    they stand for. *)
Definition category_alts : list (list ascii * list regex) := [
  (chars "utils", [plural "util"; plural "helper"; word "common"]);
  (chars "models", [plural "model"; plural "schema"; plural "entitie"]);
  (chars "services", [word "service"; word "api"; word "client"; word "adapter"]);
  (chars "tests", [word "test"; word "spec"]);
  (chars "config", [word "config"; plural "setting"])
].

Definition category_words : list (list ascii * list (list ascii)) := [
  (chars "utils", [chars "utils"; chars "util"; chars "helpers";
                   chars "helper"; chars "common"]);
  (chars "models", [chars "models"; chars "model"; chars "schemas";
                    chars "schema"; chars "entities"; chars "entitie"]);
  (chars "services", [chars "service"; chars "api"; chars "client";
                      chars "adapter"]);
  (chars "tests", [chars "test"; chars "spec"]);
  (chars "config", [chars "config"; chars "settings"; chars "setting"])
].

(** Some keyword is, letter case apart, one of the words. *)
Definition has_word (ws kws : list (list ascii)) : bool :=
  existsb (fun k => existsb (fun w => bool_decide (lower k = lower w)) ws) kws.

(** The first category of the table one of whose words is a keyword. *)
Fixpoint keyword_category (table : list (list ascii * list (list ascii)))
    (kws : list (list ascii)) : option (list ascii) :=
  match table with
  | [] => None
  | (cat, ws) :: rest =>
      if has_word ws kws then Some cat else keyword_category rest kws
  end.

(** ** Sample inputs *)

Definition LF : ascii := "010".

(** A block with a [#tests] hint whose keywords match the pattern of
    [models]. *)
Definition hinted_block : Block :=
  @make_block sample_runtime (Some (chars "python"))
    (chars "#tests" ++ LF :: chars "models = load()").

(** A block whose hint is written with a capital. *)
Definition capital_block : Block :=
  @make_block sample_runtime (Some (chars "python"))
    (chars "x = 1  #Tests").

(** A block whose first hint line has a blank between its first two [#]. *)
Definition blank_block : Block :=
  @make_block sample_runtime None (chars "# #tests").

(** A block without hint and without a keyword that a pattern matches. *)
Definition ruby_block : Block :=
  @make_block sample_runtime (Some (chars "ruby")) (chars "puts 1").

(** A block without hint whose keywords name two categories. *)
Definition helper_block : Block :=
  @make_block sample_runtime (Some (chars "python"))
    (chars "import helpers" ++ LF :: chars "model = helpers.load()").

(** A chat file whose only region is [helper_block]. *)
Definition helper_chat : list ascii :=
  chars "```python" ++ LF :: chars "import helpers" ++ LF ::
  chars "model = helpers.load()" ++ LF :: chars "```".


(** A chat file whose only region is [blank_block]. *)
Definition blank_chat : list ascii :=
  chars "```" ++ LF :: chars "# #tests" ++ LF :: chars "```".

(** A block whose only keyword has 300 letters, more than a file name
    can hold, and a chat file whose only region it is. *)
Definition long_block : Block :=
  @make_block sample_runtime (Some (chars "python")) (repeat "a" 300).

Definition long_chat : list ascii :=
  chars "```python" ++ LF :: repeat "a" 300 ++ LF :: chars "```".

Definition empty_fs : FS := {| dirs := ∅; files := ∅ |}.

(** A directory [out] that already holds [tests_models_load.py]. *)
Definition busy_fs : FS := {|
  dirs := {[ path_of (chars "out") ]};
  files := {[ path_of (chars "out/tests_models_load.py") := chars "old" ]}
|}.

(** A chat file with two fenced regions. *)
Definition sample_chat : list ascii :=
  chars "hello ```python" ++ LF :: chars "#tests" ++ LF ::
  chars "models = load()" ++ LF :: chars "``` and ```" ++ LF ::
  chars "  raw text  ```".

Definition chat_fs : FS := {|
  dirs := ∅;
  files := {[ path_of (chars "chat_history.txt") := sample_chat ]}
|}.

(** A chat file without any fence. *)
Definition plain_fs : FS := {|
  dirs := ∅;
  files := {[ path_of (chars "chat_history.txt") := chars "no code here" ]}
|}.

(** Two closed regions, then an unterminated one. *)
Definition sample_segments : list segment := [
  {| prose := chars "intro "; tag := chars "python";
     body := chars "x = 1" ++ [LF]; closed := true |};
  {| prose := LF :: chars "more `code` "; tag := [];
     body := chars "raw"; closed := true |};
  {| prose := chars " end "; tag := chars "js";
     body := chars "let y"; closed := false |}
].

(** An unterminated region before a closed one. *)
Definition unterminated_first : list segment := [
  {| prose := []; tag := chars "a"; body := chars "foo" ++ [LF]; closed := false |};
  {| prose := []; tag := chars "b"; body := chars "bar" ++ [LF]; closed := true |}
].

(** * Properties *)

(** ** Characters *)

Ltac by_cases_on c :=
  repeat match goal with H : context [c] |- _ => revert H end;
  destruct c as [[] [] [] [] [] [] [] []]; vm_compute; try done;
  intuition congruence.

Ltac list_norm :=
  repeat (rewrite <- app_assoc || rewrite <- app_comm_cons).

Lemma is_ident_word c : is_ident c = true → is_word c = true.
Proof. by_cases_on c. Qed.

Lemma word_not_newline c : is_word c = true → c ≠ "010".
Proof. by intros Hc ->. Qed.

Lemma word_not_backtick c : is_word c = true → c ≠ "`".
Proof. by intros Hc ->. Qed.

(** ** Runs *)

Lemma run_after ok s : run ok s ++ after ok s = s.
Proof. induction s as [|c s IH]; simpl; [done|]. destruct (ok c); simpl; by f_equal. Qed.

Lemma run_Forall ok s : Forall (fun c => ok c = true) (run ok s).
Proof.
  induction s as [|c s IH]; simpl; [constructor|].
  destruct (ok c) eqn:E; by constructor.
Qed.

Lemma after_head ok s c s' : after ok s = c :: s' → ok c = false.
Proof.
  induction s as [|d s IH]; simpl; [done|].
  destruct (ok d) eqn:E; [done|]. by intros [= -> _].
Qed.

Lemma run_app ok w rest :
  Forall (fun c => ok c = true) w →
  (∀ c rest', rest = c :: rest' → ok c = false) →
  run ok (w ++ rest) = w ∧ after ok (w ++ rest) = rest.
Proof.
  intros Hw Hrest. induction Hw as [|c w Hc Hw IH]; simpl.
  - destruct rest as [|c rest']; simpl; [done|].
    by rewrite (Hrest c rest' eq_refl).
  - rewrite Hc. destruct IH as [-> ->]. done.
Qed.

Lemma last_char_cons prev c w : last_char prev (c :: w) = last_char (Some c) w.
Proof.
  unfold last_char. destruct w as [|d w]; [done|].
  rewrite last_cons_cons. by destruct (last (d :: w)) eqn:E; [|apply last_None in E].
Qed.

(** ** The matcher on repetitions *)

Section RepLemmas.
Context {A : Type}.
Implicit Types k : option ascii → str → option A.

(** When the continuation cannot succeed in the middle of a run, greedy
    repetition takes the whole run or fails. *)
Lemma rep_greedy_max (Q : option ascii → Prop) ok min prev s k :
  (∀ c, ok c = true → Q (Some c)) →
  (∀ p c s', ok c = true → Q p → k p (c :: s') = None) →
  (min = 0%nat → Q prev) →
  rep_greedy ok min prev s k =
    if (min <=? length (run ok s))%nat
    then k (last_char prev (run ok s)) (after ok s) else None.
Proof.
  intros HQ Hk. revert min prev.
  induction s as [|c s IH]; intros min prev Hprev; simpl.
  - by destruct min.
  - destruct (ok c) eqn:Hc.
    + rewrite IH by (intros _; by apply HQ).
      simpl length. rewrite last_char_cons.
      destruct min as [|min]; simpl.
      * destruct (k (last_char (Some c) (run ok s)) (after ok s)); [done|].
        by apply Hk; [|apply Hprev].
      * destruct (min <=? length (run ok s))%nat; [|done].
        by destruct (k (last_char (Some c) (run ok s)) (after ok s)).
    + by destruct min.
Qed.

(** Lazy repetition of [.] under [DOTALL] stops at the first position
    where the continuation succeeds. *)
Lemma rep_lazy_any prev s k :
  rep_lazy (fun _ => true) 0 prev s k = first_success prev s k.
Proof.
  revert prev. induction s as [|c s IH]; intros prev; simpl; [done|].
  by rewrite IH.
Qed.
End RepLemmas.

(** ** The matcher on the pattern of [extract_code_blocks] *)

Lemma starts_with_fence s :
  starts_with fence s = true ↔ ∃ s1, s = fence ++ s1.
Proof.
  split.
  - destruct s as [|c1 [|c2 [|c3 s1]]]; simpl; try done;
      repeat (case_bool_decide; simpl; try done). subst. by exists s1.
  - by intros [s1 ->].
Qed.

Lemma exec_fence {A} fl p s caps (k : option ascii → str → captures → option A) :
  IGNORECASE fl = false →
  exec fl (Str fence) p s caps k =
    if starts_with fence s then k (Some "`") (drop 3 s) caps else None.
Proof.
  intros Hfl. destruct s as [|c1 [|c2 [|c3 s1]]]; simpl; rewrite ?Hfl;
    repeat (case_bool_decide; simpl; try done); by subst.
Qed.

Lemma first_success_ext {A} prev s (k1 k2 : option ascii → str → option A) :
  (∀ p s', k1 p s' = k2 p s') →
  first_success prev s k1 = first_success prev s k2.
Proof.
  intros Hk. revert prev. induction s as [|c s IH]; intros prev; simpl;
    rewrite Hk; [done|]. by rewrite IH.
Qed.

(** The closing part: the lazy body and the closing fence. *)
Lemma first_success_close {A} (G : str → str → A) pre prev s :
  first_success prev s
    (fun _ s' =>
       if starts_with fence s'
       then Some (G (take (length (pre ++ s) - length s') (pre ++ s)) (drop 3 s'))
       else None) =
  match find_close s with
  | Some (body, rest) => Some (G (pre ++ body) rest)
  | None => None
  end.
Proof.
  revert pre prev. induction s as [|c s IH]; intros pre prev.
  - simpl. by destruct (find_close []).
  - cbn [first_success find_close].
    destruct (starts_with fence (c :: s)) eqn:E.
    + rewrite length_app. replace (length pre + length (c :: s) - length (c :: s))%nat
        with (length pre) by lia.
      by rewrite take_app_length, app_nil_r.
    + specialize (IH (pre ++ [c]) (Some c)).
      rewrite <- (assoc_L (++)) in IH. change ([c] ++ s) with (c :: s) in IH.
      rewrite IH.
      destruct (find_close s) as [[body rest]|]; [|done].
      by rewrite <- (assoc_L (++)).
Qed.

Lemma exec_body prev s caps :
  exec dotall body_re prev s caps (fun _ s' caps' => Some (s', caps')) =
  match body_at s with
  | Some (body, rest) => Some (rest, ("code"%string, body) :: caps)
  | None => None
  end.
Proof.
  destruct s as [|c s3]; [done|].
  unfold body_re, body_at. cbn [exec atom_matches dotall IGNORECASE].
  case_bool_decide as Hc; [|done].
  cbn [DOTALL orb]. rewrite rep_lazy_any.
  erewrite first_success_ext by (intros; by apply exec_fence).
  exact (first_success_close
    (fun b r => (r, ("code"%string, b) :: caps)) [] (Some c) s3).
Qed.

Lemma body_at_word c s : is_word c = true → body_at (c :: s) = None.
Proof.
  intros Hc. unfold body_at.
  by rewrite bool_decide_eq_false_2 by by apply word_not_newline.
Qed.

Lemma take_run ok s : take (length s - length (after ok s)) s = run ok s.
Proof.
  rewrite <- (run_after ok s) at 1 3. rewrite length_app.
  replace (length (run ok s) + length (after ok s) - length (after ok s))%nat
    with (length (run ok s)) by lia.
  apply take_app_length.
Qed.

Lemma run_nil_after ok s : run ok s = [] → after ok s = s.
Proof. intros E. pose proof (run_after ok s) as Hs. by rewrite E in Hs. Qed.

Lemma run_cons_head ok s c w :
  run ok s = c :: w → ∃ s', s = c :: s' ∧ ok c = true.
Proof.
  destruct s as [|d s']; simpl; [done|].
  destruct (ok d) eqn:E; [|done]. intros [= -> _]. eauto.
Qed.

(** The matcher on [code_block_re] is [fence_match]. *)
Lemma match_here_code_block prev s :
  match_here dotall code_block_re prev s = fence_match s.
Proof.
  unfold match_here.
  change code_block_re with
    (Seq (Str fence) (Seq (Opt (Group "lang" (Rep Word 1 true))) body_re)).
  cbn [exec]. rewrite exec_fence by done.
  unfold fence_match, fence_at.
  destruct (starts_with fence s); [|done].
  generalize (drop 3 s) as s1. intros s1.
  change (atom_matches dotall Word) with is_word.
  rewrite (rep_greedy_max (fun _ => True)); [|done| |done].
  2:{ intros p c s' Hc _. by rewrite exec_body, body_at_word. }
  rewrite take_run, !exec_body.
  destruct (run is_word s1) as [|c w] eqn:Hrun.
  - rewrite (run_nil_after _ _ Hrun). simpl.
    by destruct (body_at s1) as [[body rest]|].
  - cbn [length Nat.leb].
    apply run_cons_head in Hrun as Hs1. destruct Hs1 as (s' & Hs1 & Hc).
    assert (body_at s1 = None) as -> by (rewrite Hs1; by apply body_at_word).
    by destruct (body_at (after is_word s1)) as [[body rest]|].
Qed.

(** ** The matcher on the pattern of [extract_keywords] *)

Lemma run_ext ok1 ok2 s : (∀ c, ok1 c = ok2 c) → run ok1 s = run ok2 s.
Proof. intros E. induction s as [|c s IH]; simpl; [done|]. by rewrite E, IH. Qed.

Lemma after_ext ok1 ok2 s : (∀ c, ok1 c = ok2 c) → after ok1 s = after ok2 s.
Proof. intros E. induction s as [|c s IH]; simpl; [done|]. by rewrite E, IH. Qed.

Lemma class_ident c :
  atom_matches no_flags (Class [("A", "Z"); ("a", "z"); ("_", "_")]) c = is_ident c.
Proof. by_cases_on c. Qed.

(** The matcher on [keyword_re] is [keyword_match]. *)
Lemma match_here_keyword prev s :
  match_here no_flags keyword_re prev s = keyword_match prev s.
Proof.
  unfold match_here, keyword_re, keyword_match, keyword_at. cbn [exec].
  destruct (at_boundary prev s); [|done]. cbn [andb].
  rewrite (rep_greedy_max (fun p => word_before p = true)); [| | |done].
  - rewrite take_run.
    rewrite (run_ext _ is_ident), (after_ext _ is_ident) by apply class_ident.
    destruct (3 <=? length (run is_ident s))%nat; [|done]. cbn [andb].
    by destruct (at_boundary _ _).
  - intros c. rewrite class_ident. apply is_ident_word.
  - intros p c s' Hc Hp. rewrite class_ident in Hc.
    unfold at_boundary. simpl. by rewrite Hp, (is_ident_word _ Hc).
Qed.

(** ** Scanning *)

Lemma scan_with_ext m1 m2 prev s skip :
  (∀ p t, m1 p t = m2 p t) →
  scan_with m1 prev s skip = scan_with m2 prev s skip.
Proof.
  intros E. revert prev skip.
  induction s as [|c s IH]; intros prev skip; simpl.
  - by rewrite E.
  - destruct skip; [|done]. rewrite E.
    destruct (m2 prev (c :: s)) as [[rest caps]|]; by rewrite IH.
Qed.

(** The characters covered by a match are passed over. *)
Lemma scan_with_skip m prev a b :
  scan_with m prev (a ++ b) (length a) = scan_with m (last_char prev a) b 0.
Proof.
  revert prev. induction a as [|c a IH]; intros prev; [done|].
  simpl. by rewrite IH, last_char_cons.
Qed.

(** A stretch of text in which no match starts is passed over. *)
Lemma scan_with_no_match m prev a b :
  (∀ p a1 a2, a = a1 ++ a2 → a2 ≠ [] → m p (a2 ++ b) = None) →
  scan_with m prev (a ++ b) 0 = scan_with m (last_char prev a) b 0.
Proof.
  revert prev. induction a as [|c a IH]; intros prev Hm; [done|].
  pose proof (Hm prev [] (c :: a) eq_refl ltac:(done)) as E.
  simpl in *. rewrite E, IH, last_char_cons; [done|].
  intros p a1 a2 -> Ha2. by apply (Hm p (c :: a1) a2).
Qed.

Lemma scan_with_nil m prev s skip :
  (∀ p s1 s2, s = s1 ++ s2 → m p s2 = None) →
  scan_with m prev s skip = [].
Proof.
  revert prev skip. induction s as [|c s IH]; intros prev skip Hm; simpl.
  - rewrite (Hm prev [] []) by done. by destruct skip.
  - assert (∀ p s1 s2, s = s1 ++ s2 → m p s2 = None) as Hm'.
    { intros p s1 s2 ->. by apply (Hm p (c :: s1) s2). }
    destruct skip; [|by apply IH].
    rewrite (Hm prev [] (c :: s)) by done. by apply IH.
Qed.

Lemma finditer_code_block s :
  finditer dotall code_block_re s = scan_with (fun _ => fence_match) None s 0.
Proof. apply scan_with_ext, match_here_code_block. Qed.

Lemma finditer_keyword s :
  finditer no_flags keyword_re s = scan_with keyword_match None s 0.
Proof. apply scan_with_ext, match_here_keyword. Qed.

(** ** Fenced regions *)

Lemma find_close_sound s body rest :
  find_close s = Some (body, rest) → s = body ++ fence ++ rest.
Proof.
  revert body. induction s as [|c s IH]; intros body; cbn [find_close].
  - by destruct (starts_with fence []) eqn:E.
  - destruct (starts_with fence (c :: s)) eqn:E.
    + apply starts_with_fence in E as [s1 E]. rewrite E. by intros [= <- <-].
    + destruct (find_close s) as [[body' rest']|]; [|done].
      intros [= <- <-]. by rewrite (IH body').
Qed.

(** A successful match is made of an opening delimiter, a body and a
    closing fence. *)
Lemma fence_at_sound s lang body rest :
  fence_at s = Some (lang, body, rest) →
  s = fence ++ lang ++ "010" :: body ++ fence ++ rest ∧
  Forall (fun c => is_word c = true) lang.
Proof.
  unfold fence_at. destruct (starts_with fence s) eqn:E; [|done].
  apply starts_with_fence in E as [s1 ->].
  change (drop 3 (fence ++ s1)) with s1.
  pose proof (run_after is_word s1) as Hs1.
  destruct (after is_word s1) as [|c s3]; [done|]. unfold body_at.
  case_bool_decide; [subst c|done].
  destruct (find_close s3) as [[body' rest']|] eqn:Hc; [|done].
  intros [= <- <- <-]. apply find_close_sound in Hc as ->.
  split; [|apply run_Forall]. simpl. by rewrite <- Hs1 at 1.
Qed.

Lemma contains_cons sub c s :
  contains sub (c :: s) = false → contains sub s = false.
Proof. simpl. by intros [_ ?]%orb_false_elim. Qed.

Lemma contains_starts_with sub s :
  contains sub s = false → starts_with sub s = false.
Proof. destruct s; simpl; by intros [? _]%orb_false_elim. Qed.

Lemma well_formed_body_cons c body :
  well_formed_body (c :: body) → well_formed_body body.
Proof.
  intros [Hc Hl]. split; [by eapply contains_cons|].
  destruct body as [|d body]; [done|]. by rewrite last_cons_cons in Hl.
Qed.

(** A well-formed body is what the lazy group captures. *)
Lemma find_close_body body rest :
  well_formed_body body → find_close (body ++ fence ++ rest) = Some (body, rest).
Proof.
  induction body as [|c body IH]; intros Hwf; [done|].
  cbn [find_close app].
  assert (starts_with fence (c :: body ++ fence ++ rest) = false) as ->.
  { destruct Hwf as [Hc Hl]. apply contains_starts_with in Hc.
    destruct body as [|d [|e body]]; simpl in *;
      repeat (case_bool_decide; simpl in *; try done); congruence. }
  by rewrite IH by by eapply well_formed_body_cons.
Qed.

Lemma fence_at_region lang body rest :
  Forall (fun c => is_word c = true) lang →
  well_formed_body body →
  fence_at (fenced_region lang body ++ rest) = Some (lang, body, rest).
Proof.
  intros Hlang Hbody. unfold fence_at, fenced_region.
  change (starts_with fence ((fence ++ ?x) ++ rest)) with true. cbn match.
  change (drop 3 ((fence ++ ?x) ++ rest)) with (x ++ rest).
  list_norm.
  destruct (run_app is_word lang ("010" :: body ++ fence ++ rest)) as [-> ->];
    [done|by intros ?? [= <- _]|].
  unfold body_at. rewrite bool_decide_eq_true_2 by done.
  by rewrite find_close_body.
Qed.

Lemma after_app ok a b :
  after ok (a ++ b) =
  match after ok a with
  | [] => after ok b
  | c :: a' => c :: a' ++ b
  end.
Proof.
  induction a as [|c a IH]; simpl; [by destruct (after ok b)|].
  by destruct (ok c).
Qed.

Lemma has_opening_suffix a1 a2 :
  has_opening (a1 ++ a2) = false → opening_at a2 = false.
Proof.
  induction a1 as [|c a1 IH]; cbn [app has_opening].
  - destruct a2; [done|]. cbn [has_opening]. by intros [? _]%orb_false_elim.
  - intros [_ ?]%orb_false_elim. by apply IH.
Qed.

(** No match starts inside prose that holds no opening delimiter, be it
    the end of the text or a fence that follows the prose. *)
Lemma fence_at_prose suf rest :
  suf ≠ [] →
  opening_at suf = false →
  rest = [] ∨ (∃ r, rest = fence ++ r) →
  fence_at (suf ++ rest) = None.
Proof.
  intros Hne Hop Hrest. unfold fence_at.
  destruct (starts_with fence (suf ++ rest)) eqn:E; [|done].
  apply starts_with_fence in E as [s1 E].
  destruct suf as [|c1 [|c2 [|c3 suf]]]; [done|..].
  - destruct Hrest as [->|[r ->]]; [done|]. injection E as -> <-.
    by cbn.
  - destruct Hrest as [->|[r ->]]; [done|]. injection E as -> -> <-.
    by cbn.
  - injection E as -> -> -> <-.
    change (drop 3 (("`" :: "`" :: "`" :: suf) ++ rest)) with (suf ++ rest).
    unfold opening_at in Hop.
    change (drop 3 ("`" :: "`" :: "`" :: suf)) with suf in Hop.
    cbn [starts_with fence chars list_ascii_of_string] in Hop.
    rewrite !bool_decide_eq_true_2 in Hop by done. cbn [andb] in Hop.
    apply bool_decide_eq_false in Hop.
    rewrite after_app. destruct (after is_word suf) as [|d s3].
    + destruct Hrest as [->|[r ->]]; by cbn.
    + unfold body_at. case_bool_decide; [|done]. by subst.
Qed.

Lemma contains_app_r sub k t :
  contains sub t = true → contains sub (k ++ t) = true.
Proof.
  intros Ht. induction k as [|c k IH]; [done|].
  simpl. rewrite IH. apply orb_true_r.
Qed.

Lemma contains_fence_app x y : contains fence (x ++ fence ++ y) = true.
Proof. apply contains_app_r. by destruct y. Qed.

Lemma contains_drop sub n t :
  contains sub (drop n t) = true → contains sub t = true.
Proof. intros. rewrite <- (take_drop n t). by apply contains_app_r. Qed.

(** A match needs a closing fence somewhere after its first character. *)
Lemma fence_at_needs_close t r :
  fence_at t = Some r → contains fence (drop 1 t) = true.
Proof.
  destruct r as [[lang body] rest]. intros [-> _]%fence_at_sound.
  change (drop 1 (fence ++ ?x)) with (chars "``" ++ x).
  rewrite !app_comm_cons, !app_assoc, <- (app_assoc _ fence rest).
  apply contains_fence_app.
Qed.

(** An opening delimiter with no fence after it yields no match,
    neither at the delimiter nor inside the text that follows it. *)
Lemma fence_at_unterminated lang body s1 s2 :
  Forall (fun c => is_word c = true) lang →
  contains fence body = false →
  fence ++ lang ++ "010" :: body = s1 ++ s2 →
  fence_at s2 = None.
Proof.
  intros Hlang Hbody E.
  destruct (fence_at s2) as [r|] eqn:Hm; [|done].
  apply fence_at_needs_close in Hm.
  assert (contains fence (drop 1 (s1 ++ s2)) = true) as Hc.
  { destruct s1 as [|c s1]; [done|].
    apply contains_app_r. by eapply contains_drop. }
  rewrite <- E in Hc. exfalso. revert Hc.
  change (drop 1 (fence ++ ?x)) with (chars "``" ++ x).
  assert (contains fence (lang ++ "010" :: body) = false) as Hl.
  { clear E Hm. induction Hlang as [|c lang Hc _ IH]; simpl.
    - by rewrite Hbody.
    - rewrite IH. rewrite bool_decide_eq_false_2; [done|].
      by apply word_not_backtick. }
  pose proof (contains_starts_with _ _ Hl) as Hs.
  destruct lang as [|c lang]; simpl in *.
  - by rewrite Hbody.
  - inversion Hlang as [|?? Hc _]; subst.
    apply orb_false_elim in Hl as [_ ->].
    by rewrite (bool_decide_eq_false_2 (c = "`")) by by apply word_not_backtick.
Qed.

Lemma scan_with_match m prev a b caps :
  a ≠ [] →
  m prev (a ++ b) = Some (b, caps) →
  scan_with m prev (a ++ b) 0 = caps :: scan_with m (last_char prev a) b 0.
Proof.
  intros Ha Hm. destruct a as [|c a]; [done|].
  cbn [scan_with app] in *. rewrite Hm. f_equal.
  replace (length (c :: a ++ b) - length b - 1)%nat with (length a)
    by (simpl; rewrite length_app; lia).
  by rewrite scan_with_skip, last_char_cons.
Qed.

Lemma scan_fence_prev p1 p2 s skip :
  scan_with (fun _ => fence_match) p1 s skip =
  scan_with (fun _ => fence_match) p2 s skip.
Proof.
  revert p1 p2 skip. induction s as [|c s IH]; intros p1 p2 skip; [done|].
  simpl. destruct skip; [|apply IH].
  destruct (fence_match (c :: s)) as [[rest caps]|]; [f_equal|]; apply IH.
Qed.

Lemma scan_prose_end tail prev :
  has_opening tail = false →
  scan_with (fun _ => fence_match) prev tail 0 = [].
Proof.
  intros Htail. apply scan_with_nil. intros _ s1 s2 ->.
  destruct s2 as [|c s2]; [done|]. unfold fence_match.
  rewrite <- (app_nil_r (c :: s2)), fence_at_prose; eauto using has_opening_suffix.
Qed.

Lemma scan_prose_fence text r prev :
  has_opening text = false →
  scan_with (fun _ => fence_match) prev (text ++ fence ++ r) 0 =
  scan_with (fun _ => fence_match) None (fence ++ r) 0.
Proof.
  intros Htext. rewrite scan_with_no_match; [apply scan_fence_prev|].
  intros _ a1 a2 -> Ha2. unfold fence_match.
  rewrite fence_at_prose; eauto using has_opening_suffix.
Qed.

Lemma scan_transcript segs tail prev :
  Forall valid_segment segs →
  has_opening tail = false →
  unterminated_last segs tail = true →
  scan_with (fun _ => fence_match) prev (transcript segs tail) 0 =
  map (fun g => fence_captures (tag g) (body g))
      (filter (fun g => closed g = true) segs).
Proof.
  intros Hvalid Htail. revert prev.
  induction Hvalid as [|g segs (Hprose & Htag & Hbody) _ IH];
    intros prev Hlast.
  - by apply scan_prose_end.
  - unfold transcript. cbn [map concat]. unfold render_segment at 1.
    list_norm. rewrite scan_prose_fence by done.
    destruct (closed g) eqn:Hclosed.
    + rewrite filter_cons_True by done. cbn [map].
      pose proof (scan_with_match (fun _ => fence_match) None
        (fenced_region (tag g) (body g)) (transcript segs tail)
        (fence_captures (tag g) (body g))) as Hm.
      unfold fenced_region, transcript in Hm. revert Hm. list_norm. intros ->.
      * f_equal. apply IH. cbn [unterminated_last] in Hlast.
        by apply andb_true_iff in Hlast as [_ ?].
      * done.
      * pose proof (fence_at_region (tag g) (body g) (transcript segs tail)
          Htag Hbody) as Hf.
        unfold fence_match. unfold fenced_region, transcript in Hf. revert Hf.
        list_norm. by intros ->.
    + rewrite filter_cons_False by by rewrite Hclosed.
      cbn [unterminated_last] in Hlast. rewrite Hclosed in Hlast.
      destruct segs as [|??]; [|done]. destruct tail as [|??]; [|done].
      cbn [map concat].
      rewrite !app_nil_r. apply scan_with_nil. intros _ s1 s2 E.
      unfold fence_match. by erewrite fence_at_unterminated.
Qed.

Section ExtractorProperties.
Context `{PyRuntime}.

Lemma extract_code_blocks_scan t :
  extract_code_blocks t =
  map block_of_match (scan_with (fun _ => fence_match) None t 0).
Proof. unfold extract_code_blocks. by rewrite finditer_code_block. Qed.

Lemma no_region_no_blocks t :
  ¬ contains_region t → extract_code_blocks t = [].
Proof.
  intros Hno. rewrite extract_code_blocks_scan, scan_with_nil; [done|].
  intros _ s1 s2 ->. unfold fence_match.
  destruct (fence_at s2) as [[[lang body] rest]|] eqn:E; [|done].
  destruct Hno. apply fence_at_sound in E as [-> Hlang].
  exists s1, lang, body, rest. split; [done|].
  unfold fenced_region. by list_norm.
Qed.

Lemma block_of_fence_captures lang body :
  block_of_match (fence_captures lang body) =
  make_block (match lang with [] => None | _ :: _ => Some lang end) body.
Proof. by destruct lang. Qed.

(** C3, amended: the regions of a transcript whose only unterminated
    region, if any, comes last yield exactly their blocks, in document
    order; the unterminated region yields none. *)
Theorem extract_code_blocks_regions segs tail :
  Forall valid_segment segs →
  has_opening tail = false →
  unterminated_last segs tail = true →
  extract_code_blocks (transcript segs tail) = expected_blocks segs.
Proof.
  intros Hvalid Htail Hlast.
  rewrite extract_code_blocks_scan, scan_transcript by done.
  unfold expected_blocks. rewrite map_map. apply map_ext.
  intros g. apply block_of_fence_captures.
Qed.
End ExtractorProperties.

(** ** The classifier *)

Lemma split_app_sep sep a b :
  sep ∉ a → split sep (a ++ sep :: b) = a :: split sep b.
Proof.
  induction a as [|c a IH]; intros Ha; simpl.
  - by rewrite bool_decide_eq_true_2.
  - apply not_elem_of_cons in Ha as [Hc Ha].
    rewrite bool_decide_eq_false_2 by done. by rewrite IH.
Qed.

Lemma split_no_sep sep a : sep ∉ a → split sep a = [a].
Proof.
  induction a as [|c a IH]; intros Ha; simpl; [done|].
  apply not_elem_of_cons in Ha as [Hc Ha].
  rewrite bool_decide_eq_false_2 by done. by rewrite IH.
Qed.

(** The field that follows the first separator. *)
Lemma split_second sep before tok rest :
  sep ∉ before → sep ∉ tok → rest = [] ∨ (∃ r, rest = sep :: r) →
  split sep (before ++ sep :: tok ++ rest) !! 1%nat = Some tok.
Proof.
  intros Hb Ht Hrest. rewrite split_app_sep by done. simpl.
  destruct Hrest as [->|[r ->]].
  - by rewrite app_nil_r, split_no_sep.
  - by rewrite split_app_sep.
Qed.

Lemma starts_with_head c sub s : starts_with (c :: sub) s = true → head s = Some c.
Proof. destruct s; simpl; [done|]. case_bool_decide; [by subst|done]. Qed.

Lemma contains_head c sub s : contains (c :: sub) s = true → c ∈ s.
Proof.
  induction s as [|d s IH]; [done|]. cbn [contains].
  intros [Hs|Hc]%orb_true_iff.
  - apply starts_with_head in Hs as [= ->]. by left.
  - right. by apply IH.
Qed.

Lemma char_lower_hash c : char_lower c = "#" → c = "#".
Proof. by_cases_on c. Qed.

Lemma hash_in_lower s : "#" ∈ lower s → "#" ∈ s.
Proof.
  unfold lower. intros (c & Hc & Hin)%list_elem_of_fmap.
  symmetry in Hc. by apply char_lower_hash in Hc as ->.
Qed.

(** Every text splits at its first separator. *)
Lemma split_fields (sep : ascii) (s : str) :
  sep ∈ s →
  ∃ before tok rest : str,
    s = before ++ sep :: tok ++ rest ∧ (sep ∉ before) ∧ (sep ∉ tok) ∧
    (rest = [] ∨ ∃ r, rest = sep :: r).
Proof.
  intros (before & s2 & -> & Hb)%list_elem_of_split_l.
  exists before. destruct (decide (sep ∈ s2)) as [Hin|Hnot].
  - apply list_elem_of_split_l in Hin as (tok & r & -> & Ht).
    exists tok, (sep :: r). eauto 10.
  - exists s2, []. rewrite app_nil_r. eauto 10.
Qed.

Lemma lstrip_spaces s : Forall (fun c => is_space c = true) s → lstrip s = [].
Proof. induction 1 as [|c s Hc _ IH]; simpl; [done|]. by rewrite Hc. Qed.

Lemma strip_spaces s : Forall (fun c => is_space c = true) s → strip s = [].
Proof. intros Hs. unfold strip. by rewrite lstrip_spaces. Qed.

Section ClassifierProperties.
Context `{PyRuntime}.

Lemma has_hint_hash self line : has_hint self line = true → "#" ∈ line.
Proof.
  unfold has_hint. intros (folder & _ & Hc)%existsb_exists.
  by eapply hash_in_lower, contains_head.
Qed.

Lemma hint_scan_first self pre l post :
  Forall (fun x => has_hint self x = false) pre →
  has_hint self l = true →
  hint_scan self (pre ++ l :: post) =
  Some (match split "#" l !! 1%nat with
        | Some t => Return (strip t)
        | None => Raise IndexError
        end).
Proof.
  intros Hpre Hl. induction Hpre as [|x pre Hx _ IH]; simpl.
  - by rewrite Hl.
  - by rewrite Hx.
Qed.

Lemma hint_scan_none self lines :
  Forall (fun x => has_hint self x = false) lines → hint_scan self lines = None.
Proof. induction 1 as [|x ? Hx _ IH]; simpl; [done|]. by rewrite Hx. Qed.

Lemma hint_scan_total self lines r :
  hint_scan self lines = Some r → ∃ c, r = Return c.
Proof.
  induction lines as [|l lines IH]; simpl; [done|].
  destruct (has_hint self l) eqn:Hl; [|done]. intros [= <-].
  apply has_hint_hash, split_fields in Hl
    as (before & tok & rest & -> & Hb & Ht & Hrest).
  rewrite split_second by done. eauto.
Qed.

(** The classifier on a block whose first hint line is [l]. *)
Lemma determine_category_hint self b pre l post before tok rest :
  split "010" (content b) = pre ++ l :: post →
  Forall (fun x => has_hint self x = false) pre →
  has_hint self l = true →
  l = before ++ "#" :: tok ++ rest →
  "#" ∉ before → "#" ∉ tok → rest = [] ∨ (∃ r, rest = "#" :: r) →
  determine_category self b = Return (strip tok).
Proof.
  intros Hlines Hpre Hl -> Hb Ht Hrest. unfold determine_category.
  rewrite Hlines, hint_scan_first by done. by rewrite split_second.
Qed.

(** C1: when some line of the block carries a hint, the classifier
    returns what the hint scan computes on the first such line in
    document order, whatever the keywords of the block match. *)
Theorem determine_category_hint_first self b pre l post :
  split "010" (content b) = pre ++ l :: post →
  Forall (fun x => has_hint self x = false) pre →
  has_hint self l = true →
  ∃ t, split "#" l !! 1%nat = Some t ∧
       determine_category self b = Return (strip t) ∧
       hint_scan self (split "010" (content b)) = Some (Return (strip t)).
Proof.
  intros Hlines Hpre Hl.
  destruct (split_fields "#" l (has_hint_hash _ _ Hl))
    as (before & tok & rest & E & Hb & Ht & Hrest).
  exists tok. split; [subst l; by apply split_second|]. split.
  - by eapply determine_category_hint.
  - rewrite Hlines, hint_scan_first by done. subst l.
    by rewrite split_second.
Qed.

(** C4: when the hint scan fires on a line, the classifier returns the
    field that follows the first [#] of that line (the text up to the
    next [#] or the end of the line), stripped, in the case it is
    written in. *)
Theorem determine_category_hint_verbatim self b pre l post before tok rest :
  split "010" (content b) = pre ++ l :: post →
  Forall (fun x => has_hint self x = false) pre →
  has_hint self l = true →
  l = before ++ "#" :: tok ++ rest →
  "#" ∉ before → "#" ∉ tok → rest = [] ∨ (∃ r, rest = "#" :: r) →
  determine_category self b = Return (strip tok) ∧
  (lower (strip tok) ≠ strip tok →
   determine_category self b ≠ Return (lower (strip tok))).
Proof.
  intros. erewrite determine_category_hint by done.
  split; [done|]. by intros Hne [= E].
Qed.

Lemma determine_category_Return self b :
  ∃ c, determine_category self b = Return c.
Proof.
  unfold determine_category.
  destruct (hint_scan _ _) as [r|] eqn:E; [by eapply hint_scan_total|].
  destruct (pattern_scan _ _); eauto.
Qed.

(** C5: the classifier always returns a category, and it returns
    [uncategorized/<language>] when no line has a hint and no pattern
    matches the joined keywords. *)
Theorem determine_category_total self b :
  (∃ c, determine_category self b = Return c) ∧
  ((∀ line, line ∈ split "010" (content b) → has_hint self line = false) →
   (∀ cat pat, (cat, pat) ∈ component_patterns self →
      search ignorecase pat (join [" "] (keywords b)) = false) →
   determine_category self b =
     Return (chars "uncategorized/" ++ language b)).
Proof.
  split; [apply determine_category_Return|].
  intros Hhint Hpat. unfold determine_category.
  rewrite hint_scan_none by by apply Forall_forall.
  assert (pattern_scan (component_patterns self)
            (join [" "] (keywords b)) = None) as ->; [|done].
  induction (component_patterns self) as [|[cat pat] l IH]; [done|].
  simpl. rewrite (Hpat cat pat) by by left.
  apply IH. intros cat' pat' Hin. apply (Hpat cat' pat'). by right.
Qed.
End ClassifierProperties.

(** ** Decimal numerals *)

Lemma chars_inj s1 s2 : chars s1 = chars s2 → s1 = s2.
Proof.
  unfold chars. intros E.
  by rewrite <- (string_of_list_ascii_of_string s1), E,
    string_of_list_ascii_of_string.
Qed.

Lemma str_of_nat_inj n m : str_of_nat n = str_of_nat m → n = m.
Proof. unfold str_of_nat. intros E%chars_inj. by apply (inj pretty). Qed.

Lemma pretty_N_char_digit x : is_digit (pretty_N_char x) = true.
Proof. unfold pretty_N_char. by repeat case_match. Qed.

Lemma pretty_N_go_digits x s :
  Forall (fun c => is_digit c = true) (chars s) →
  Forall (fun c => is_digit c = true) (chars (pretty_N_go x s)).
Proof.
  revert s. induction (N.lt_wf_0 x) as [x _ IH]; intros s Hs.
  assert (x = 0 ∨ 0 < x)%N as [->|?] by lia; [by rewrite pretty_N_go_0|].
  rewrite pretty_N_go_step by done. apply IH; [by apply N.div_lt|].
  constructor; [apply pretty_N_char_digit|done].
Qed.

Lemma str_of_nat_digits n : Forall (fun c => is_digit c = true) (str_of_nat n).
Proof.
  unfold str_of_nat, pretty, pretty_nat, pretty, pretty_N.
  case_decide; [by repeat constructor|].
  apply pretty_N_go_digits. constructor.
Qed.

Lemma str_of_nat_no_slash n : "/" ∉ str_of_nat n.
Proof.
  intros Hin. pose proof (str_of_nat_digits n) as Hd.
  rewrite Forall_forall in Hd. by apply Hd in Hin.
Qed.

(** ** Paths *)

Lemma split_nonempty sep s : split sep s ≠ [].
Proof.
  destruct s as [|c s]; simpl; [done|].
  case_bool_decide; [done|]. by destruct (split sep s).
Qed.

Lemma split_app sep a b :
  split sep (a ++ sep :: b) = split sep a ++ split sep b.
Proof.
  induction a as [|c a IH]; simpl.
  - by rewrite bool_decide_eq_true_2.
  - case_bool_decide; [by rewrite IH|]. rewrite IH.
    pose proof (split_nonempty sep a). by destruct (split sep a).
Qed.

Lemma components_app a b :
  components (a ++ "/" :: b) = components a ++ components b.
Proof. unfold components. by rewrite split_app, filter_app. Qed.

Lemma components_single x :
  "/" ∉ x → x ≠ [] → x ≠ ["."] → components x = [x].
Proof.
  intros Hx ??. unfold components. rewrite split_no_sep by done.
  by rewrite filter_cons_True, filter_nil.
Qed.

Lemma counter_part_no_slash n : "/" ∉ counter_part n.
Proof.
  unfold counter_part. intros [?|?]%elem_of_cons; [done|].
  by eapply str_of_nat_no_slash.
Qed.

Lemma counter_name_proper a k el :
  a ++ counter_part k ++ el ≠ [] ∧ a ++ counter_part k ++ el ≠ ["."].
Proof.
  assert ("_" ∈ a ++ counter_part k ++ el) as Hin.
  { rewrite !elem_of_app. right. left. by left. }
  split; intros E; rewrite E in Hin.
  - by apply elem_of_nil in Hin.
  - by apply list_elem_of_singleton in Hin.
Qed.

(** The components of a name, for a prefix without separator. *)
Lemma components_counter_plain a rest :
  "/" ∉ a →
  ∃ el post, ∀ k,
    components (a ++ counter_part k ++ rest) =
    (a ++ counter_part k ++ el) :: post.
Proof.
  intros Ha.
  destruct (decide ("/" ∈ rest)) as [Hin|Hnot].
  - apply list_elem_of_split_l in Hin as (el & E & -> & Hel).
    exists el, (components E). intros k.
    rewrite !app_assoc, components_app, <- !app_assoc.
    rewrite components_single; [done| |apply counter_name_proper..].
    rewrite !not_elem_of_app. eauto using counter_part_no_slash.
  - exists rest, []. intros k.
    rewrite components_single; [done| |apply counter_name_proper..].
    rewrite !not_elem_of_app. eauto using counter_part_no_slash.
Qed.

Lemma components_counter base rest :
  ∃ pre a, (∀ k, components (base ++ counter_part k ++ rest) =
                 pre ++ components (a ++ counter_part k ++ rest)) ∧ "/" ∉ a.
Proof.
  induction base as [base IH] using (induction_ltof1 _ (@length ascii)).
  unfold ltof in IH.
  destruct (decide ("/" ∈ base)) as [Hin|Hnot].
  - apply list_elem_of_split_l in Hin as (a & base' & -> & Ha).
    destruct (IH base') as (pre & a' & E & Ha').
    { rewrite length_app. simpl. lia. }
    exists (components a ++ pre), a'. split; [|done]. intros k.
    by rewrite <- !app_assoc, <- app_comm_cons, components_app, E, app_assoc.
  - exists [], base. by split.
Qed.

Lemma components_counter_inj base rest n m :
  components (base ++ counter_part n ++ rest) =
  components (base ++ counter_part m ++ rest) → n = m.
Proof.
  destruct (components_counter base rest) as (pre & a & E & Ha).
  destruct (components_counter_plain a rest Ha) as (el & post & E').
  rewrite !E, !E'. intros [= E'']%app_inv_head.
  apply app_inv_head in E''. injection E'' as E''.
  by apply app_inv_tail, str_of_nat_inj in E''.
Qed.

Lemma components_counter_nonempty base rest n :
  components (base ++ counter_part n ++ rest) ≠ [].
Proof.
  destruct (components_counter base rest) as (pre & a & E & Ha).
  destruct (components_counter_plain a rest Ha) as (el & post & E').
  rewrite E, E'. by destruct pre.
Qed.

(** ** The namer *)

Lemma numbered_counter base ext n :
  numbered base ext n = base ++ counter_part n ++ ext.
Proof. done. Qed.

Lemma numbered_anchor base ext n m :
  starts_with ["/"] (numbered base ext n) = starts_with ["/"] (numbered base ext m).
Proof. by destruct base. Qed.

(** The numbered names denote pairwise distinct paths. *)
Lemma path_div_numbered_inj dest base ext n m :
  path_div dest (numbered base ext n) = path_div dest (numbered base ext m) →
  n = m.
Proof.
  unfold path_div. rewrite (numbered_anchor base ext n m).
  destruct (starts_with ["/"] (numbered base ext m)).
  - intros [= E]. exact (components_counter_inj base ext n m E).
  - intros [= E%app_inv_head]. exact (components_counter_inj base ext n m E).
Qed.

Lemma path_div_numbered_parts dest base ext n :
  (path_div dest (numbered base ext n)).2 ≠ [].
Proof.
  unfold path_div. rewrite numbered_counter.
  pose proof (components_counter_nonempty base ext n).
  destruct (starts_with _ _); simpl; [done|].
  by intros [_ ?]%app_eq_nil.
Qed.

Lemma path_exists_entries fs p :
  p.2 ≠ [] → path_exists fs p = true → p ∈ entries fs.
Proof.
  intros Hp. unfold path_exists, is_dir, is_file, entries.
  rewrite (bool_decide_eq_false_2 (p.2 = [])) by done. simpl.
  intros [Hd%bool_decide_eq_true|Hf%bool_decide_eq_true]%orb_true_iff;
    set_solver.
Qed.

Lemma size_entries fs : size (entries fs) ≤ size (dirs fs) + size (files fs).
Proof.
  unfold entries. rewrite size_union_alt.
  pose proof (subseteq_size (dom (files fs) ∖ dirs fs) (dom (files fs))) as Hs.
  rewrite size_dom in Hs.
  assert (dom (files fs) ∖ dirs fs ⊆ dom (files fs)) as Hsub
    by by apply subseteq_difference_l.
  specialize (Hs Hsub). lia.
Qed.

(** Among the first [size + 1] numbered names one is free. *)
Lemma free_candidate fs dest base ext :
  ∃ n, 1 ≤ n ≤ S (size (entries fs)) ∧
       path_exists fs (path_div dest (numbered base ext n)) = false.
Proof.
  set (k := size (entries fs)).
  set (P := fun n => path_exists fs (path_div dest (numbered base ext n)) = false).
  destruct (decide (Exists P (seq 1 (S k)))) as [Hex|Hno].
  - apply Exists_exists in Hex as (n & Hn%elem_of_seq & HP).
    exists n. split; [lia|done].
  - exfalso. apply not_Exists_Forall in Hno; [|intros x; unfold P; apply _].
    rewrite Forall_forall in Hno.
    set (l := (fun n => path_div dest (numbered base ext n)) <$> seq 1 (S k)).
    assert (NoDup l) as Hnd.
    { apply NoDup_fmap_2_strong; [|apply NoDup_seq].
      intros n m _ _. apply path_div_numbered_inj. }
    assert (list_to_set l ⊆ entries fs) as Hsub.
    { intros p Hp%elem_of_list_to_set.
      apply list_elem_of_fmap in Hp as (n & -> & Hn).
      apply path_exists_entries; [apply path_div_numbered_parts|].
      specialize (Hno n Hn). unfold P in Hno. simpl in Hno.
      by destruct (path_exists _ _). }
    apply subseteq_size in Hsub.
    rewrite size_list_to_set in Hsub by done.
    unfold l in Hsub. rewrite length_fmap, length_seq in Hsub. lia.
Qed.

(** The least free numbered name. *)
Lemma least_free_candidate fs dest base ext :
  ∃ n, 1 ≤ n ≤ S (size (entries fs)) ∧
       path_exists fs (path_div dest (numbered base ext n)) = false ∧
       ∀ m, 1 ≤ m < n →
            path_exists fs (path_div dest (numbered base ext m)) = true.
Proof.
  destruct (free_candidate fs dest base ext) as (n & Hn & Hfree).
  revert Hn Hfree. generalize (S (size (entries fs))) as bound.
  induction n as [n IH] using lt_wf_ind. intros bound Hn Hfree.
  destruct (decide (Exists (fun m =>
    path_exists fs (path_div dest (numbered base ext m)) = false)
    (seq 1 (n - 1)))) as [Hex|Hno].
  - apply Exists_exists in Hex as (m & Hm%elem_of_seq & HP).
    destruct (IH m ltac:(lia) bound ltac:(lia) HP) as (n' & ? & ? & ?).
    exists n'. eauto.
  - exists n. split; [done|]. split; [done|]. intros m Hm.
    apply not_Exists_Forall in Hno; [|intros x; apply _].
    rewrite Forall_forall in Hno.
    specialize (Hno m). simpl in Hno.
    destruct (path_exists fs (path_div dest (numbered base ext m))) eqn:E;
      [done|].
    exfalso. apply Hno; [apply elem_of_seq; lia|done].
Qed.

(** The loop of [generate_filename] from the counter [c] on. *)
Lemma probe_numbered fs dest base ext fuel c n :
  c ≤ n →
  (∀ m, c ≤ m < n →
        path_exists fs (path_div dest (numbered base ext m)) = true) →
  path_exists fs (path_div dest (numbered base ext n)) = false →
  n - c < fuel →
  probe fs dest base ext fuel (numbered base ext c) (S c) =
    Some (numbered base ext n).
Proof.
  revert c. induction fuel as [|fuel IH]; intros c Hc Hbusy Hfree Hfuel; [lia|].
  simpl. destruct (decide (c = n)) as [->|Hne].
  - by rewrite Hfree.
  - rewrite Hbusy by lia. apply IH; [lia| |done|lia].
    intros m Hm. apply Hbusy. lia.
Qed.

Lemma underscores_app a b : underscores (a ++ b) = underscores a + underscores b.
Proof. unfold underscores. by rewrite filter_app, length_app. Qed.

Lemma underscores_cons c s :
  underscores (c :: s) = (if bool_decide (c = "_") then 1 else 0) + underscores s.
Proof.
  unfold underscores. case_bool_decide.
  - by rewrite filter_cons_True.
  - by rewrite filter_cons_False.
Qed.

Lemma underscores_split s : underscores (concat (split "/" s)) = underscores s.
Proof.
  induction s as [|c s IH]; [done|]. cbn [split].
  case_bool_decide as Hc.
  - subst c. cbn [concat app]. by rewrite IH, underscores_cons.
  - pose proof (split_nonempty "/" s) as Hne.
    destruct (split "/" s) as [|h t]; [done|]. cbn [concat app] in *.
    by rewrite !underscores_cons, IH.
Qed.

Lemma underscores_components s : underscores (concat (components s)) = underscores s.
Proof.
  rewrite <- (underscores_split s). unfold components.
  induction (split "/" s) as [|x l IH]; [done|].
  destruct (decide (x ≠ [] ∧ x ≠ ["."])) as [Hx|Hx].
  - rewrite filter_cons_True by done. simpl.
    by rewrite !underscores_app, IH.
  - rewrite filter_cons_False by done. simpl. rewrite underscores_app, IH.
    assert (x = [] ∨ x = ["."]) as [->| ->]; [|done..].
    destruct (decide (x = [])); [by left|].
    destruct (decide (x = ["."])); [by right|]. by destruct Hx.
Qed.

Lemma underscores_digits s :
  Forall (fun c => is_digit c = true) s → underscores s = 0.
Proof.
  unfold underscores. induction 1 as [|c s Hc _ IH]; [done|].
  rewrite filter_cons_False; [done|]. by intros ->.
Qed.

Lemma underscores_numbered base ext n :
  underscores (numbered base ext n) = S (underscores (base ++ ext)).
Proof.
  unfold numbered. change ("_" :: str_of_nat n ++ ext) with (["_"] ++ str_of_nat n ++ ext).
  rewrite !underscores_app, (underscores_digits (str_of_nat n))
    by apply str_of_nat_digits.
  change (underscores ["_"]) with 1. lia.
Qed.

Lemma path_div_parts_inj dest s1 s2 :
  starts_with ["/"] s1 = starts_with ["/"] s2 →
  path_div dest s1 = path_div dest s2 → components s1 = components s2.
Proof.
  unfold path_div. intros ->.
  destruct (starts_with ["/"] s2); [by intros [= ?]|].
  by intros [= ?%app_inv_head].
Qed.

(** All the names that [generate_filename] tries denote pairwise
    distinct paths. *)
Lemma path_div_candidate_inj dest base ext n m :
  base ≠ [] →
  path_div dest (candidate base ext n) = path_div dest (candidate base ext m) →
  n = m.
Proof.
  intros Hbase.
  assert (∀ k, path_div dest (base ++ ext) ≠
               path_div dest (numbered base ext (S k))) as Hplain.
  { intros k E. apply path_div_parts_inj in E; [|by destruct base].
    apply (f_equal (fun l => underscores (concat l))) in E.
    rewrite !underscores_components, underscores_numbered in E. lia. }
  destruct n as [|n], m as [|m]; cbn [candidate]; intros E.
  - done.
  - by apply Hplain in E.
  - symmetry in E. by apply Hplain in E.
  - by apply (path_div_numbered_inj dest base ext) in E.
Qed.

Lemma base_name_nonempty b : base_name b ≠ [].
Proof. unfold base_name. by destruct (join _ _). Qed.

(** The loop of [generate_filename] exits, on the first free name. *)
Lemma probe_exits fs dest base ext :
  ∃ n, n ≤ S (size (entries fs)) ∧
    path_exists fs (path_div dest (candidate base ext n)) = false ∧
    (∀ m, m < n →
       path_exists fs (path_div dest (candidate base ext m)) = true) ∧
    ∀ fuel, probe_fuel fs ≤ fuel →
      probe fs dest base ext fuel (base ++ ext) 1 = Some (candidate base ext n).
Proof.
  pose proof (size_entries fs) as Hsize.
  destruct (path_exists fs (path_div dest (base ++ ext))) eqn:E0.
  - destruct (least_free_candidate fs dest base ext) as (n & Hn & Hfree & Hbusy).
    exists n. destruct n as [|n]; [lia|].
    split; [lia|]. split; [done|]. split.
    + intros [|m] Hm; [done|]. apply Hbusy. lia.
    + intros fuel Hfuel. unfold probe_fuel in Hfuel.
      destruct fuel as [|fuel]; [lia|]. cbn [probe]. rewrite E0.
      apply (probe_numbered fs dest base ext fuel 1 (S n)); [lia|done..|lia].
  - exists 0. split; [lia|]. split; [done|]. split; [lia|].
    intros fuel Hfuel. unfold probe_fuel in Hfuel.
    destruct fuel as [|fuel]; [lia|]. cbn [probe candidate]. by rewrite E0.
Qed.

Lemma join_nonempty sep (l : list (list ascii)) :
  l ≠ [] → [] ∉ l → join sep l ≠ [].
Proof.
  destruct l as [|x [|y l]]; [done|..]; simpl; intros _ Hin.
  - intros ->. apply Hin. by left.
  - intros [-> _]%app_eq_nil. apply Hin. by left.
Qed.

Lemma base_name_keywords b :
  [] ∉ keywords b →
  base_name b =
    match keywords b with
    | [] => chars "code"
    | _ :: _ => join ["_"] (take 3 (keywords b))
    end.
Proof.
  intros Hk. unfold base_name. destruct (keywords b) as [|k ks]; [done|].
  pose proof (join_nonempty ["_"] (take 3 (k :: ks))) as Hj.
  destruct (join ["_"] (take 3 (k :: ks))); [|done].
  destruct Hj; [done| |done].
  intros Hin. apply Hk. by eapply subseteq_take.
Qed.

Lemma get_extension_table lang :
  get_extension lang =
    if bool_decide (lang = chars "python") then chars ".py"
    else if bool_decide (lang = chars "javascript") then chars ".js"
    else if bool_decide (lang = chars "typescript") then chars ".ts"
    else if bool_decide (lang = chars "java") then chars ".java"
    else if bool_decide (lang = chars "csharp") then chars ".cs"
    else if bool_decide (lang = chars "txt") then chars ".txt"
    else "." :: lang.
Proof.
  unfold get_extension, extensions. cbn [dict_get].
  repeat (case_bool_decide; [subst; by rewrite ?bool_decide_eq_true_2 by done|];
          rewrite (bool_decide_eq_false_2 (lang = _)) by done).
  done.
Qed.

(** C2: the name returned is free in the destination directory; it is the
    first free one among [base+ext, base_1+ext, base_2+ext, ...], where
    [base] joins the first three keywords with underscores (['code']
    without keywords) and [ext] comes from the table of extensions. *)
Theorem generate_filename_unique fs b dest :
  [] ∉ keywords b →
  let base :=
    match keywords b with
    | [] => chars "code"
    | _ :: _ => join ["_"] (take 3 (keywords b))
    end in
  let ext :=
    if bool_decide (language b = chars "python") then chars ".py"
    else if bool_decide (language b = chars "javascript") then chars ".js"
    else if bool_decide (language b = chars "typescript") then chars ".ts"
    else if bool_decide (language b = chars "java") then chars ".java"
    else if bool_decide (language b = chars "csharp") then chars ".cs"
    else if bool_decide (language b = chars "txt") then chars ".txt"
    else "." :: language b in
  ∃ name n,
    generate_filename fs b dest = Some name ∧
    path_exists fs (path_div dest name) = false ∧
    name = candidate base ext n ∧
    (∀ m, m < n →
       path_exists fs (path_div dest (candidate base ext m)) = true) ∧
    (path_exists fs (path_div dest (base ++ ext)) = true →
     path_exists fs (path_div dest (base ++ chars "_1" ++ ext)) = false →
     name = base ++ chars "_1" ++ ext).
Proof.
  intros Hk base ext.
  assert (base_name b = base) as Hbase by by apply base_name_keywords.
  assert (get_extension (language b) = ext) as Hext
    by apply get_extension_table.
  destruct (probe_exits fs dest base ext) as (n & Hn & Hfree & Hbusy & Hprobe).
  exists (candidate base ext n), n. repeat split; try done.
  - unfold generate_filename. rewrite Hbase, Hext. by apply Hprobe.
  - intros H0 H1. destruct n as [|[|n]].
    + cbn [candidate] in Hfree. congruence.
    + done.
    + specialize (Hbusy 1 ltac:(lia)).
      change (candidate base ext 1) with (base ++ chars "_1" ++ ext) in Hbusy.
      congruence.
Qed.

(** C8: the names tried denote pairwise distinct paths, one of the first
    [size + 2] of them is free, and the loop exits on it: no test is made
    beyond the fuel that the model provides. *)
Theorem generate_filename_terminates fs b dest :
  let base := base_name b in
  let ext := get_extension (language b) in
  (∀ n m,
     path_div dest (candidate base ext n) = path_div dest (candidate base ext m) →
     n = m) ∧
  ∃ n,
    n ≤ S (size (entries fs)) ∧
    path_exists fs (path_div dest (candidate base ext n)) = false ∧
    (∀ fuel, probe_fuel fs ≤ fuel →
       probe fs dest base ext fuel (base ++ ext) 1 = Some (candidate base ext n)) ∧
    generate_filename fs b dest = Some (candidate base ext n).
Proof.
  intros base ext. split.
  - intros n m. apply path_div_candidate_inj, base_name_nonempty.
  - destruct (probe_exits fs dest base ext) as (n & Hn & Hfree & Hbusy & Hprobe).
    exists n. repeat split; try done. by apply Hprobe.
Qed.

(** ** The keyword deriver *)

Lemma isupper_entirely t : isupper t = true ↔ entirely_uppercase t.
Proof.
  unfold isupper, entirely_uppercase.
  rewrite andb_true_iff, negb_true_iff, existsb_exists.
  setoid_rewrite <- list_elem_of_In. split.
  - intros [Hup Hlow]. split; [done|]. intros c Hc.
    destruct (is_lower c) eqn:E; [|done].
    assert (existsb is_lower t = true) as Hex; [|congruence].
    apply existsb_exists. setoid_rewrite <- list_elem_of_In. eauto.
  - intros [Hup Hlow]. split; [done|].
    destruct (existsb is_lower t) eqn:E; [|done].
    apply existsb_exists in E as (c & Hc%list_elem_of_In & Hl).
    by rewrite Hlow in Hl.
Qed.

Lemma keyword_at_sound prev s w rest :
  keyword_at prev s = Some (w, rest) →
  s = w ++ rest ∧ w = run is_ident s ∧
  Forall (fun c => is_ident c = true) w ∧ 3 ≤ length w ∧
  word_before prev = false ∧ word_after rest = false.
Proof.
  unfold keyword_at.
  destruct (at_boundary prev s) eqn:Hb1; [|done].
  destruct (3 <=? length (run is_ident s))%nat eqn:Hlen; [|done].
  destruct (at_boundary _ (after is_ident s)) eqn:Hb2; [|done].
  intros [= <- <-]. apply Nat.leb_le in Hlen.
  pose proof (run_after is_ident s) as Hs.
  pose proof (run_Forall is_ident s) as Hrun.
  split; [done|]. split; [done|]. split; [done|]. split; [done|].
  destruct (run is_ident s) as [|c w] eqn:Hw; [simpl in Hlen; lia|].
  split.
  - rewrite <- Hs in Hb1. unfold at_boundary in Hb1. simpl in Hb1.
    inversion Hrun as [|?? Hc _]; subst.
    rewrite (is_ident_word _ Hc) in Hb1. by destruct (word_before prev).
  - unfold at_boundary in Hb2.
    assert (word_before (last_char prev (c :: w)) = true) as Hlast.
    { unfold last_char. destruct (last (c :: w)) as [d|] eqn:Hd.
      - apply last_Some_elem_of in Hd. rewrite Forall_forall in Hrun.
        simpl. apply is_ident_word, Hrun, Hd.
      - by apply last_None in Hd. }
    rewrite Hlast in Hb2. by destruct (word_after _).
Qed.

Lemma keyword_at_token prev t post :
  Forall (fun c => is_ident c = true) t →
  3 ≤ length t →
  word_before prev = false →
  word_after post = false →
  keyword_at prev (t ++ post) = Some (t, post).
Proof.
  intros Ht Hlen Hprev Hpost. unfold keyword_at.
  destruct (run_app is_ident t post Ht) as [-> ->].
  { intros c rest' ->. simpl in Hpost.
    destruct (is_ident c) eqn:E; [|done]. apply is_ident_word in E. congruence. }
  destruct t as [|c t]; [simpl in Hlen; lia|].
  inversion Ht as [|?? Hc Ht']; subst.
  assert (at_boundary prev ((c :: t) ++ post) = true) as ->.
  { unfold at_boundary. simpl. by rewrite Hprev, (is_ident_word _ Hc). }
  apply Nat.leb_le in Hlen. rewrite Hlen. simpl.
  assert (word_before (last_char prev (c :: t)) = true) as Hlast.
  { unfold last_char. destruct (last (c :: t)) as [d|] eqn:Hd.
    - apply last_Some_elem_of in Hd. rewrite Forall_forall in Ht.
      simpl. apply is_ident_word, Ht, Hd.
    - by apply last_None in Hd. }
  unfold at_boundary. by rewrite Hlast, Hpost.
Qed.

Lemma found_nil prev skip : found prev [] skip = [].
Proof.
  unfold found. cbn [scan_with]. unfold keyword_match, keyword_at. simpl.
  rewrite andb_false_r. by destruct skip.
Qed.

Lemma found_skip prev c s n : found prev (c :: s) (S n) = found (Some c) s n.
Proof. done. Qed.

Lemma found_step prev c s :
  found prev (c :: s) 0 =
  match keyword_at prev (c :: s) with
  | Some (w, rest) => w :: found (Some c) s (length w - 1)
  | None => found (Some c) s 0
  end.
Proof.
  unfold found. cbn [scan_with]. unfold keyword_match.
  destruct (keyword_at prev (c :: s)) as [[w rest]|] eqn:E; [|done].
  apply keyword_at_sound in E as (Hs & _). cbn [omap list_omap group].
  rewrite bool_decide_eq_true_2 by done. simpl. do 3 f_equal.
  apply (f_equal length) in Hs. rewrite length_app in Hs. simpl in Hs. lia.
Qed.

Lemma found_sound pre s prev skip t :
  word_before prev = word_before (last pre) →
  t ∈ found prev s skip → is_token (pre ++ s) t.
Proof.
  revert pre prev skip. induction s as [|c s IH]; intros pre prev skip Hprev.
  - rewrite found_nil. by intros ?%elem_of_nil.
  - assert (∀ n, t ∈ found (Some c) s n → is_token (pre ++ c :: s) t) as Hrest.
    { intros n Hin. rewrite cons_middle, app_assoc.
      apply (IH _ (Some c) n); [|done]. by rewrite last_snoc. }
    destruct skip as [|n]; [|by apply Hrest].
    rewrite found_step.
    destruct (keyword_at prev (c :: s)) as [[w rest]|] eqn:E; [|by apply Hrest].
    intros [->|Hin]%elem_of_cons; [|by eapply Hrest].
    apply keyword_at_sound in E as (-> & _ & Hw & Hlen & Hb & Ha).
    exists pre, rest. rewrite <- Hprev. eauto.
Qed.

Lemma found_complete t post :
  Forall (fun c => is_ident c = true) t →
  3 ≤ length t →
  word_after post = false →
  ∀ pre prev skip,
    Forall (fun c => is_word c = true) (take skip (pre ++ t ++ post)) →
    (pre = [] → skip = 0 ∧ word_before prev = false) →
    word_before (last pre) = false →
    t ∈ found prev (pre ++ t ++ post) skip.
Proof.
  intros Ht Hlen Hpost. induction pre as [|c pre IH]; intros prev skip Hskip Hnil Hlast.
  - destruct (Hnil eq_refl) as [-> Hprev].
    destruct t as [|c t'] eqn:Et; [simpl in Hlen; lia|]. rewrite <- Et in *.
    assert (([] ++ t ++ post) = c :: (t' ++ post)) as -> by by rewrite Et.
    rewrite found_step. change (c :: t' ++ post) with ((c :: t') ++ post).
    rewrite <- Et, keyword_at_token by done. by left.
  - assert (pre = [] → is_word c = false) as Hc by by intros ->.
    assert (word_before (last pre) = false) as Hlast'.
    { destruct pre as [|d pre]; [done|]. by rewrite last_cons_cons in Hlast. }
    rewrite <- app_comm_cons. destruct skip as [|n].
    + rewrite found_step.
      destruct (keyword_at prev (c :: pre ++ t ++ post)) as [[w rest]|] eqn:E.
      * right. apply keyword_at_sound in E as (Hs & _ & Hw & Hwlen & _ & _).
        destruct w as [|c' w]; [simpl in Hwlen; lia|].
        injection Hs as <- Hs. inversion Hw as [|?? Hc' Hw']; subst.
        apply IH; [| |done].
        -- rewrite Hs. simpl. rewrite Nat.sub_0_r, take_app_length.
           eapply Forall_impl; [done|]. intros ?. apply is_ident_word.
        -- intros Hpre. apply Hc in Hpre. apply is_ident_word in Hc'. congruence.
      * apply IH; [by constructor| |done]. intros Hpre. eauto.
    + rewrite found_skip. simpl in Hskip. inversion Hskip as [|?? Hc' Hskip']; subst.
      apply IH; [done| |done]. intros Hpre. apply Hc in Hpre. congruence.
Qed.

Lemma found_tokens code t : t ∈ found None code 0 ↔ is_token code t.
Proof.
  split.
  - apply (found_sound [] code None 0 t). done.
  - intros (pre & post & -> & Ht & Hlen & Hpre & Hpost).
    by apply found_complete.
Qed.

Lemma findall_keywords code : findall no_flags keyword_re code = found None code 0.
Proof. unfold findall, found. by rewrite finditer_keyword. Qed.

Section KeywordProperties.
Context `{PyRuntime}.

Lemma extract_keywords_elem code k :
  k ∈ extract_keywords code ↔
  ∃ t, is_token code t ∧ ¬ entirely_uppercase t ∧ k = lower t.
Proof.
  unfold extract_keywords.
  rewrite set_to_list_elem, list_elem_of_In, in_map_iff.
  setoid_rewrite <- list_elem_of_In.
  setoid_rewrite list_elem_of_filter.
  rewrite findall_keywords. setoid_rewrite found_tokens.
  split.
  - intros (t & <- & Hup & Htok). exists t. split; [done|]. split; [|done].
    rewrite <- isupper_entirely. congruence.
  - intros (t & Htok & Hup & ->). exists t. split; [done|]. split; [|done].
    rewrite <- isupper_entirely in Hup. by destruct (isupper t).
Qed.

(** C6: the keywords of a text are the lowercased tokens of the text
    that are not entirely in upper case, each once. *)
Theorem extract_keywords_tokens code :
  NoDup (extract_keywords code) ∧
  ∀ k, k ∈ extract_keywords code ↔
       ∃ t, is_token code t ∧ ¬ entirely_uppercase t ∧ k = lower t.
Proof. split; [apply set_to_list_NoDup|apply extract_keywords_elem]. Qed.

(** Derived keywords are never empty. *)
Lemma extract_keywords_nonempty code : [] ∉ extract_keywords code.
Proof.
  intros Hin. apply extract_keywords_elem in Hin
    as (t & (pre & post & _ & _ & Hlen & _) & _ & E).
  destruct t; [simpl in Hlen; lia|done].
Qed.
End KeywordProperties.

(** ** The file system *)

Lemma path_exists_false fs p :
  path_exists fs p = false → files fs !! p = None.
Proof.
  unfold path_exists, is_dir, is_file.
  intros [[Hp _]%orb_false_elim Hf]%orb_false_elim.
  rewrite Hp in Hf. simpl in Hf. apply bool_decide_eq_false in Hf.
  by apply not_elem_of_dom.
Qed.

Lemma path_exists_child fs a parts c :
  path_exists fs (a, parts ++ [c]) = false →
  ((a, parts ++ [c]) ∉ dirs fs) ∧ ((a, parts ++ [c]) ∉ dom (files fs)).
Proof.
  unfold path_exists, is_dir, is_file. cbn [fst snd].
  rewrite (bool_decide_eq_false_2 (parts ++ [c] = []))
    by (by destruct parts).
  cbn [orb negb andb].
  intros [Hd Hf]%orb_false_elim.
  by apply bool_decide_eq_false in Hd, Hf.
Qed.

Section FileSystemProperties.
Context `{PyRuntime}.

Lemma write_text_Return p data fs fs' :
  write_text p data fs = Return fs' →
  fs' = {| dirs := dirs fs; files := <[ p := data ]> (files fs) |}.
Proof.
  unfold write_text. case_bool_decide; [done|].
  destruct (PATH_MAX <=? _)%nat; [done|].
  destruct (resolve fs p.1 [] p.2) as [e|[]]; try done; by intros [= <-].
Qed.

Lemma write_text_not_Diverge p data fs : write_text p data fs ≠ Diverge.
Proof.
  unfold write_text. case_bool_decide; [done|].
  destruct (PATH_MAX <=? _)%nat; [done|].
  by destruct (resolve fs p.1 [] p.2) as [e|[]].
Qed.

Lemma resolve_not_IndexError fs a comps :
  ∀ prefix, resolve fs a prefix comps ≠ inl IndexError.
Proof.
  induction comps as [|c rest IH]; intros prefix; cbn [resolve]; [done|].
  destruct (NAME_MAX <? length c)%nat; [done|].
  case_bool_decide; [apply IH|].
  case_bool_decide; by destruct rest.
Qed.

Lemma write_text_not_IndexError p data fs :
  write_text p data fs ≠ Raise IndexError.
Proof.
  unfold write_text. case_bool_decide; [done|].
  destruct (PATH_MAX <=? _)%nat; [done|].
  pose proof (resolve_not_IndexError fs p.1 p.2 []) as Hr.
  destruct (resolve fs p.1 [] p.2) as [e|[]]; try done.
  intros [= ->]. done.
Qed.

Lemma read_text_not_Diverge name fs : read_text name fs ≠ Diverge.
Proof.
  unfold read_text. case_bool_decide; [done|]. case_bool_decide; [done|].
  destruct (PATH_MAX <=? _)%nat; [done|].
  destruct (resolve fs _ [] _) as [e|[]]; try done.
  destruct (wants_dir name); [done|].
  destruct (files fs !! _); [|done]. by destruct (locale_decode _).
Qed.

Lemma read_text_not_IndexError name fs : read_text name fs ≠ Raise IndexError.
Proof.
  unfold read_text. case_bool_decide; [done|]. case_bool_decide; [done|].
  destruct (PATH_MAX <=? _)%nat; [done|].
  pose proof (resolve_not_IndexError fs (path_of name).1 (path_of name).2 [])
    as Hr.
  destruct (resolve fs _ [] _) as [e|[]]; try done.
  - intros [= ->]. done.
  - destruct (wants_dir name); [done|].
    destruct (files fs !! _); [|done]. by destruct (locale_decode _).
Qed.

Lemma mkdir_walk_files a comps :
  ∀ prefix fs fs' r,
    mkdir_walk a prefix comps fs = (fs', r) → files fs' = files fs.
Proof.
  induction comps as [|c rest IH]; intros prefix fs fs' r; cbn [mkdir_walk].
  - by intros [= <- <-].
  - destruct (NAME_MAX <? length c)%nat; [by intros [= <- <-]|].
    case_bool_decide; [by apply IH|].
    case_bool_decide; [by intros [= <- <-]|].
    intros Hw%IH. by rewrite Hw.
Qed.

Lemma mkdir_walk_dirs a comps :
  ∀ prefix fs fs' r,
    mkdir_walk a prefix comps fs = (fs', r) → dirs fs ⊆ dirs fs'.
Proof.
  induction comps as [|c rest IH]; intros prefix fs fs' r; cbn [mkdir_walk].
  - by intros [= <- <-].
  - destruct (NAME_MAX <? length c)%nat; [by intros [= <- <-]|].
    case_bool_decide; [by apply IH|].
    case_bool_decide; [by intros [= <- <-]|].
    intros Hw%IH. etrans; [|exact Hw]. apply union_subseteq_r.
Qed.

Lemma mkdir_walk_outcome a comps :
  ∀ prefix fs fs' r,
    mkdir_walk a prefix comps fs = (fs', r) →
    r = Return () ∨ r = Raise OSError ∨ r = Raise FileExistsError ∨
    r = Raise NotADirectoryError.
Proof.
  induction comps as [|c rest IH]; intros prefix fs fs' r; cbn [mkdir_walk].
  - intros [= <- <-]. by left.
  - destruct (NAME_MAX <? length c)%nat; [intros [= <- <-]; by eauto|].
    case_bool_decide; [by apply IH|].
    case_bool_decide; [|by apply IH].
    intros [= <- <-]. destruct rest; by eauto.
Qed.

(** A walk that completes leaves every directory of the path in place,
    and met no name that is too long. *)
Lemma mkdir_walk_Return a comps :
  ∀ prefix fs fs',
    mkdir_walk a prefix comps fs = (fs', Return ()) →
    Forall (fun c => length c ≤ NAME_MAX) comps ∧
    ∀ k, k < length comps → (a, prefix ++ take (S k) comps) ∈ dirs fs'.
Proof.
  induction comps as [|c rest IH]; intros prefix fs fs'; cbn [mkdir_walk].
  - intros _. split; [constructor|]. intros k Hk. simpl in Hk. lia.
  - destruct (NAME_MAX <? length c)%nat eqn:Hlen; [done|].
    apply Nat.ltb_ge in Hlen.
    assert (∀ fs1, (a, prefix ++ [c]) ∈ dirs fs1 →
      mkdir_walk a (prefix ++ [c]) rest fs1 = (fs', Return ()) →
      Forall (fun c => length c ≤ NAME_MAX) (c :: rest) ∧
      ∀ k, k < length (c :: rest) →
           (a, prefix ++ take (S k) (c :: rest)) ∈ dirs fs') as Hstep.
    { intros fs1 Hin Hrun.
      pose proof (mkdir_walk_dirs _ _ _ _ _ _ Hrun) as Hsub.
      apply IH in Hrun as [Hshort Hchain].
      split; [by constructor|]. intros [|k] Hk.
      - cbn [take]. by apply Hsub.
      - cbn [take]. specialize (Hchain k ltac:(simpl in Hk; lia)).
        by rewrite <- app_assoc in Hchain. }
    case_bool_decide; [by apply Hstep|].
    case_bool_decide; [done|].
    apply Hstep. unfold add_dir. cbn [dirs]. apply elem_of_union_l.
    by apply elem_of_singleton.
Qed.

(** Along a chain of directories the walk goes through. *)
Lemma resolve_chain fs a comps :
  ∀ prefix rest,
    Forall (fun c => length c ≤ NAME_MAX) comps →
    (∀ k, k < length comps → (a, prefix ++ take (S k) comps) ∈ dirs fs) →
    resolve fs a prefix (comps ++ rest) = resolve fs a (prefix ++ comps) rest.
Proof.
  induction comps as [|c comps IH]; intros prefix rest Hshort Hchain.
  - by rewrite app_nil_r.
  - inversion Hshort as [|?? Hc Hshort']; subst.
    cbn [app resolve]. apply Nat.ltb_ge in Hc. rewrite Hc.
    rewrite bool_decide_eq_true_2
      by (apply (Hchain 0); simpl; lia).
    rewrite IH; [by rewrite <- app_assoc|done|].
    intros k Hk. specialize (Hchain (S k) ltac:(simpl; lia)).
    cbn [take] in Hchain. by rewrite <- app_assoc.
Qed.

Lemma mkdir_parents_files p fs fs' r :
  mkdir_parents p fs = (fs', r) → files fs' = files fs.
Proof.
  unfold mkdir_parents. case_bool_decide; [by intros [= <- <-]|].
  destruct (PATH_MAX <=? _)%nat; [by intros [= <- <-]|].
  apply mkdir_walk_files.
Qed.

Lemma mkdir_parents_dirs p fs fs' r :
  mkdir_parents p fs = (fs', r) → dirs fs ⊆ dirs fs'.
Proof.
  unfold mkdir_parents. case_bool_decide; [by intros [= <- <-]|].
  destruct (PATH_MAX <=? _)%nat; [by intros [= <- <-]|].
  apply mkdir_walk_dirs.
Qed.

Lemma mkdir_parents_outcome p fs fs' r :
  mkdir_parents p fs = (fs', r) →
  r = Return () ∨ r = Raise ValueError ∨ r = Raise OSError ∨
  r = Raise FileExistsError ∨ r = Raise NotADirectoryError.
Proof.
  unfold mkdir_parents. case_bool_decide; [intros [= <- <-]; by eauto|].
  destruct (PATH_MAX <=? _)%nat; [intros [= <- <-]; by eauto|].
  intros [->|[->|[->| ->]]]%mkdir_walk_outcome; by eauto 6.
Qed.

(** When the directory could be created, its path holds no NUL, is
    within the limits, and every directory on the way exists. *)
Lemma mkdir_parents_Return p fs fs' :
  mkdir_parents p fs = (fs', Return ()) →
  ("000" ∉ concat p.2) ∧
  length (path_str p) < PATH_MAX ∧
  Forall (fun c => length c ≤ NAME_MAX) p.2 ∧
  ∀ k, k < length p.2 → (p.1, take (S k) p.2) ∈ dirs fs'.
Proof.
  unfold mkdir_parents. case_bool_decide as Hnul; [done|].
  destruct (PATH_MAX <=? _)%nat eqn:Hlen; [done|].
  apply Nat.leb_gt in Hlen.
  intros [Hshort Hchain]%mkdir_walk_Return. done.
Qed.


(** Opening a new file in a directory that [mkdir_parents] has just
    made sure of fails only on the limits of the file system. *)
Lemma write_text_fresh dest c data fs fs1 :
  mkdir_parents dest fs = (fs1, Return ()) →
  path_exists fs1 (dest.1, dest.2 ++ [c]) = false →
  "000" ∉ c →
  write_text (dest.1, dest.2 ++ [c]) data fs1 =
    if fits (dest.1, dest.2 ++ [c])
    then Return {| dirs := dirs fs1;
                   files := <[ (dest.1, dest.2 ++ [c]) := data ]> (files fs1) |}
    else Raise OSError.
Proof.
  intros (Hnul & _ & Hshort & Hchain)%mkdir_parents_Return Hfree Hc.
  apply path_exists_child in Hfree as [Hd Hf].
  unfold write_text, fits. cbn [fst snd].
  rewrite bool_decide_eq_false_2.
  2:{ rewrite concat_app. simpl. rewrite app_nil_r, elem_of_app.
      by intros [?|?]. }
  rewrite forallb_app. cbn [forallb]. rewrite andb_true_r.
  assert (forallb (fun c0 => (length c0 <=? NAME_MAX)%nat) dest.2 = true)
    as ->.
  { apply forallb_forall. intros x Hx%list_elem_of_In.
    rewrite Forall_forall in Hshort. by apply Nat.leb_le, Hshort. }
  rewrite andb_true_l.
  destruct (PATH_MAX <=? length (path_str (dest.1, dest.2 ++ [c])))%nat
    eqn:Hpath.
  - apply Nat.leb_le in Hpath. rewrite (proj2 (Nat.ltb_ge _ _) Hpath).
    by rewrite andb_false_r.
  - apply Nat.leb_gt in Hpath. rewrite (proj2 (Nat.ltb_lt _ _) Hpath).
    rewrite andb_true_r.
    rewrite (resolve_chain fs1 dest.1 dest.2 [] [c]) by done.
    cbn [app resolve].
    destruct (NAME_MAX <? length c)%nat eqn:Hname.
    + apply Nat.ltb_lt in Hname. by rewrite (proj2 (Nat.leb_gt _ _) Hname).
    + apply Nat.ltb_ge in Hname. rewrite (proj2 (Nat.leb_le _ _) Hname).
      by rewrite !bool_decide_eq_false_2.
Qed.

End FileSystemProperties.

Section MaterializerProperties.
Context `{PyRuntime}.

(** One iteration of [organize_code], step by step. *)
Lemma organize_block_run self b fs :
  ∃ directory, determine_category self b = Return directory ∧
  let dest_dir := path_div (output_dir self) directory in
  match mkdir_parents dest_dir fs with
  | (fs1, Return _) =>
      ∃ filename,
        generate_filename fs1 b dest_dir = Some filename ∧
        files fs1 !! path_div dest_dir filename = None ∧
        organize_block self b fs =
          match write_text (path_div dest_dir filename) (content b) fs1 with
          | Return fs2 => (fs2, Return ())
          | Raise e => (fs1, Raise e)
          | Diverge => (fs1, Diverge)
          end
  | (fs1, Raise e) => organize_block self b fs = (fs1, Raise e)
  | (fs1, Diverge) => False
  end.
Proof.
  destruct (determine_category_Return self b) as [directory Hcat].
  exists directory. split; [done|]. intros dest_dir.
  unfold organize_block, mbind, io_bind, pure_outcome, update, inspect.
  rewrite Hcat. fold dest_dir.
  destruct (mkdir_parents dest_dir fs) as [fs1 r1] eqn:Hmk.
  pose proof (mkdir_parents_outcome _ _ _ _ Hmk) as Hout.
  destruct r1 as [[]|e|]; [|done|by destruct Hout as [?|[?|[?|[?|?]]]]].
  destruct (probe_exits fs1 dest_dir (base_name b) (get_extension (language b)))
    as (n & _ & Hfree & _ & Hprobe).
  exists (candidate (base_name b) (get_extension (language b)) n).
  unfold generate_filename. rewrite Hprobe by done.
  split; [done|]. split; [by apply path_exists_false|]. done.
Qed.

(** What one iteration of [organize_code] does when it completes. *)
Lemma organize_block_Return self b fs fs' :
  organize_block self b fs = (fs', Return ()) →
  ∃ directory fs1 filename,
    determine_category self b = Return directory ∧
    mkdir_parents (path_div (output_dir self) directory) fs
      = (fs1, Return ()) ∧
    generate_filename fs1 b (path_div (output_dir self) directory)
      = Some filename ∧
    files fs !!
      path_div (path_div (output_dir self) directory) filename = None ∧
    dirs fs' = dirs fs1 ∧
    files fs' =
      <[ path_div (path_div (output_dir self) directory) filename
         := content b ]> (files fs).
Proof.
  destruct (organize_block_run self b fs) as (directory & Hcat & Hrun).
  cbn zeta in Hrun.
  destruct (mkdir_parents _ fs) as [fs1 [[]|e|]] eqn:Hmk;
    [|by rewrite Hrun|done].
  destruct Hrun as (filename & Hgen & Hnew & ->).
  apply mkdir_parents_files in Hmk as Hfiles.
  destruct (write_text _ _ fs1) as [fs2|e|] eqn:Hw; [|done..].
  intros [= <-]. apply write_text_Return in Hw as ->.
  exists directory, fs1, filename. rewrite <- Hfiles. by repeat split.
Qed.

(** An iteration that ends with an exception failed to create the
    directory or to open the file. *)
Lemma organize_block_Raise self b fs fs' e :
  organize_block self b fs = (fs', Raise e) ↔ iteration_fails self b fs e fs'.
Proof.
  destruct (organize_block_run self b fs) as (directory & Hcat & Hrun).
  cbn zeta in Hrun. unfold iteration_fails. split.
  - intros Hfail. exists directory. split; [done|]. cbn zeta.
    destruct (mkdir_parents _ fs) as [fs1 [[]|e1|]] eqn:Hmk; [| |done].
    + destruct Hrun as (filename & Hgen & _ & Hrun). rewrite Hrun in Hfail.
      right. exists filename.
      destruct (write_text _ _ fs1) as [fs2|e2|] eqn:Hw; [done| |done].
      by injection Hfail as <- <-.
    + rewrite Hrun in Hfail. injection Hfail as <- <-. by left.
  - intros (d & Hd & Hcases). rewrite Hcat in Hd. injection Hd as <-.
    cbn zeta in Hcases. destruct Hcases as [Hmk|(filename & Hmk & Hgen & Hw)].
    + by rewrite Hmk in Hrun.
    + rewrite Hmk in Hrun. destruct Hrun as (filename' & Hgen' & _ & ->).
      rewrite Hgen in Hgen'. injection Hgen' as <-. by rewrite Hw.
Qed.

(** An iteration that does not complete writes no file; the fuel of the
    model is never exhausted and no [IndexError] is raised. *)
Lemma organize_block_fail self b fs fs' r :
  organize_block self b fs = (fs', r) →
  r ≠ Return () →
  files fs' = files fs ∧ r ≠ Diverge ∧ r ≠ Raise IndexError.
Proof.
  destruct (organize_block_run self b fs) as (directory & Hcat & Hrun).
  cbn zeta in Hrun.
  destruct (mkdir_parents _ fs) as [fs1 [[]|e|]] eqn:Hmk; [| |done].
  - destruct Hrun as (filename & Hgen & Hnew & ->).
    apply mkdir_parents_files in Hmk as Hfiles.
    pose proof (write_text_not_Diverge
      (path_div (path_div (output_dir self) directory) filename)
      (content b) fs1) as Hw.
    pose proof (write_text_not_IndexError
      (path_div (path_div (output_dir self) directory) filename)
      (content b) fs1) as Hw'.
    destruct (write_text _ _ fs1) as [fs2|e|]; [by intros [= <- <-]| |done].
    intros [= <- <-] _. split; [done|]. split; [done|]. by intros [= ->].
  - rewrite Hrun. intros [= <- <-] _.
    split; [by eapply mkdir_parents_files|]. split; [done|].
    apply mkdir_parents_outcome in Hmk.
    intros [= ->]. by destruct Hmk as [?|[?|[?|[?|?]]]].
Qed.

(** What [organize_code] leaves on disk: one new file per block it
    got through, holding the content of that block, and nothing else
    changed among the files; when it ends with an exception, that is the
    exception of the iteration on the first block it did not get
    through. *)
Lemma organize_code_writes self blocks fs fs' r :
  organize_code self blocks fs = (fs', r) →
  r ≠ Diverge ∧ r ≠ Raise IndexError ∧
  ∃ paths,
    NoDup paths ∧
    Forall (fun p => files fs !! p = None) paths ∧
    Forall2 (fun p b => files fs' !! p = Some (content b))
            paths (take (length paths) blocks) ∧
    (r = Return () → length paths = length blocks) ∧
    (∀ e, r = Raise e →
       ∃ b fs0, blocks !! length paths = Some b ∧
                files fs0 = files fs' ∧
                iteration_fails self b fs0 e fs') ∧
    (∀ q, q ∉ paths → files fs' !! q = files fs !! q).
Proof.
  revert fs. induction blocks as [|b blocks IH]; intros fs; cbn [organize_code].
  - intros [= <- <-]. split; [done|]. split; [done|]. exists [].
    split; [apply NoDup_nil_2|]. by repeat split; try constructor.
  - unfold mbind, io_bind. fold (organize_code self blocks).
    destruct (organize_block self b fs) as [fs1 r1] eqn:Hb.
    assert (r1 = Return () ∨ r1 ≠ Return ()) as [->|Hr1]
      by (destruct r1 as [[]|?|]; by eauto).
    + apply organize_block_Return in Hb
        as (directory & fs0 & filename & _ & _ & _ & Hnew & _ & Hfiles).
      set (p0 := path_div (path_div (output_dir self) directory) filename) in *.
      intros (Hdiv & Hidx & paths & Hnd & Hfresh & Hcont & Hlen & Hfail
              & Hframe)%IH.
      split; [done|]. split; [done|]. rewrite Forall_forall in Hfresh.
      assert (p0 ∉ paths) as Hp0.
      { intros Hin%Hfresh. by rewrite Hfiles, lookup_insert_eq in Hin. }
      exists (p0 :: paths). split; [by constructor|].
      split; [|split; [|split; [|split]]].
      * constructor; [done|]. apply Forall_forall. intros p Hp.
        specialize (Hfresh p Hp). rewrite Hfiles in Hfresh.
        rewrite lookup_insert_ne in Hfresh; [done|]. by intros ->.
      * cbn [length take]. constructor; [|done].
        rewrite (Hframe p0 Hp0), Hfiles. apply lookup_insert_eq.
      * intros Hr. simpl. by rewrite Hlen.
      * intros e He. destruct (Hfail e He) as (b' & fs2 & Hb' & Hf' & Hit).
        by exists b', fs2.
      * intros q [Hq0 Hq]%not_elem_of_cons.
        by rewrite (Hframe q Hq), Hfiles, lookup_insert_ne.
    + destruct (organize_block_fail self b fs fs1 r1 Hb Hr1)
        as (Hfiles & Hdiv & Hidx).
      assert ((fs1, r1) = (fs', r) → fs1 = fs' ∧ r1 = r) as Hsame
        by by intros [= <- <-].
      destruct r1 as [[]|e|]; [done| |done].
      intros [<- <-]%Hsame. split; [done|]. split; [done|]. exists [].
      split; [apply NoDup_nil_2|]. rewrite Hfiles.
      split; [constructor|]. split; [constructor|]. split; [done|].
      split; [|done]. intros e' [= <-]. exists b, fs.
      split; [done|]. split; [done|]. by apply organize_block_Raise.
Qed.

Lemma Forall2_map_r {A B C} (P : A → C → Prop) (f : B → C) l k :
  Forall2 P l (map f k) ↔ Forall2 (fun x y => P x (f y)) l k.
Proof.
  revert l. induction k as [|y k IH]; intros l; simpl.
  - split; inversion 1; constructor.
  - split; inversion 1; subst; constructor; try done; by apply IH.
Qed.

(** C7: every file that a run writes holds exactly the stripped text
    that the pattern captured between the fences of its block.  The run
    ends; it writes one new file per block it gets through, in document
    order, and leaves the other files as they were; it gets through all
    the blocks unless the iteration on one of them fails to create the
    destination directory or to open the file, and then it ends with
    that exception. *)
Theorem process_chat_round_trip self chat_file fs text fs' r :
  read_text chat_file fs = Return text →
  process_chat self chat_file fs = (fs', r) →
  r ≠ Diverge ∧
  ∃ paths,
    NoDup paths ∧
    Forall (fun p => files fs !! p = None) paths ∧
    Forall2 (fun p m =>
               files fs' !! p = Some (strip (default [] (group "code" m))))
            paths
            (take (length paths) (finditer dotall code_block_re text)) ∧
    (r = Return () →
     length paths = length (finditer dotall code_block_re text)) ∧
    (∀ e, r = Raise e →
       ∃ m fs0,
         finditer dotall code_block_re text !! length paths = Some m ∧
         files fs0 = files fs' ∧
         iteration_fails self (block_of_match m) fs0 e fs') ∧
    (∀ q, q ∉ paths → files fs' !! q = files fs !! q).
Proof.
  intros Hread. unfold process_chat, mbind, io_bind, inspect. rewrite Hread.
  intros (Hdiv & _ & paths & Hnd & Hfresh & Hcont & Hlen & Hfail
          & Hframe)%organize_code_writes.
  split; [done|]. exists paths. unfold extract_code_blocks in *.
  rewrite length_map in Hlen. rewrite firstn_map in Hcont.
  apply Forall2_map_r in Hcont.
  split; [done|]. split; [done|]. split; [done|]. split; [done|].
  split; [|done]. intros e He.
  destruct (Hfail e He) as (b & fs0 & Hb & Hfiles & Hit).
  apply list_lookup_fmap_Some in Hb as (m & -> & Hm).
  by exists m, fs0.
Qed.

(** C10: on a transcript without any fenced region, [process_chat]
    completes and leaves the file system as it found it: no file is
    written and no directory is created. *)
Theorem process_chat_no_region self chat_file fs text :
  read_text chat_file fs = Return text →
  ¬ contains_region text →
  process_chat self chat_file fs = (fs, Return ()).
Proof.
  intros Hread Hno. unfold process_chat, mbind, io_bind, inspect.
  by rewrite Hread, no_region_no_blocks.
Qed.
End MaterializerProperties.

(** * Further properties of the program *)

(** ** More on the extractor *)

Lemma find_close_complete s :
  contains fence s = true → ∃ body rest, find_close s = Some (body, rest).
Proof.
  induction s as [|c s IH]; [done|]. cbn [contains find_close].
  destruct (starts_with fence (c :: s)); [by eauto|]. simpl.
  intros (body & rest & ->)%IH. eauto.
Qed.

(** An opening delimiter that some fence follows is matched. *)
Lemma fence_at_opening lang s :
  Forall (fun c => is_word c = true) lang →
  contains fence s = true →
  ∃ body rest, fence_at (fence ++ lang ++ "010" :: s) = Some (lang, body, rest).
Proof.
  intros Hlang (body & rest & Hc)%find_close_complete.
  exists body, rest. unfold fence_at.
  change (starts_with fence (fence ++ ?x)) with true. cbn match.
  change (drop 3 (fence ++ ?x)) with x.
  destruct (run_app is_word lang ("010" :: s)) as [-> ->];
    [done|by intros ?? [= <- _]|].
  unfold body_at. rewrite bool_decide_eq_true_2 by done. by rewrite Hc.
Qed.

Lemma scan_with_nil_inv m prev s :
  scan_with m prev s 0 = [] →
  ∀ s1 s2, s = s1 ++ s2 → m (last_char prev s1) s2 = None.
Proof.
  revert prev. induction s as [|c s IH]; intros prev Hscan s1 s2 E.
  - symmetry in E. apply app_eq_nil in E as [-> ->]. simpl in *.
    unfold last_char. simpl. by destruct (m prev []) as [[??]|].
  - cbn [scan_with] in Hscan.
    destruct (m prev (c :: s)) as [[rest caps]|] eqn:Hm; [done|].
    destruct s1 as [|d s1]; simpl in E.
    + by subst s2.
    + injection E as <- ->. rewrite last_char_cons. by apply IH.
Qed.

Lemma scan_fence_elem caps prev s skip :
  caps ∈ scan_with (fun _ => fence_match) prev s skip →
  ∃ lang body,
    caps = fence_captures lang body ∧ Forall (fun c => is_word c = true) lang.
Proof.
  revert prev skip. induction s as [|c s IH]; intros prev skip.
  - simpl. destruct skip; [|by intros ?%elem_of_nil].
    unfold fence_match. by intros ?%elem_of_nil.
  - cbn [scan_with]. destruct skip as [|n]; [|apply IH].
    unfold fence_match at 1.
    destruct (fence_at (c :: s)) as [[[lang body] rest]|] eqn:E; [|apply IH].
    intros [->|Hin]%elem_of_cons; [|by eapply IH].
    apply fence_at_sound in E as [_ Hlang]. eauto.
Qed.

Lemma lstrip_split s :
  ∃ sp, s = sp ++ lstrip s ∧ Forall (fun c => is_space c = true) sp.
Proof.
  induction s as [|c s (sp & E & Hsp)]; [by exists []|]. simpl.
  destruct (is_space c) eqn:Hc.
  - exists (c :: sp). split; [by rewrite E at 1|by constructor].
  - by exists [].
Qed.

Lemma lstrip_head s c : head (lstrip s) = Some c → is_space c = false.
Proof.
  induction s as [|d s IH]; [done|]. simpl.
  destruct (is_space d) eqn:Hd; [done|]. by intros [= <-].
Qed.

Lemma lstrip_id s :
  (∀ c, head s = Some c → is_space c = false) → lstrip s = s.
Proof. destruct s as [|c s]; [done|]. simpl. intros Hc. by rewrite Hc. Qed.

Lemma rstrip_split s :
  ∃ sp, s = rstrip s ++ sp ∧ Forall (fun c => is_space c = true) sp.
Proof.
  unfold rstrip. destruct (lstrip_split (reverse s)) as (sp & E & Hsp).
  exists (reverse sp). split; [|by apply Forall_reverse].
  by rewrite <- reverse_app, <- E, reverse_involutive.
Qed.

Lemma rstrip_last s c : last (rstrip s) = Some c → is_space c = false.
Proof. unfold rstrip. rewrite last_reverse. apply lstrip_head. Qed.

Lemma rstrip_head s c :
  (∀ d, head s = Some d → is_space d = false) →
  head (rstrip s) = Some c → is_space c = false.
Proof.
  intros Hs Hc. destruct (rstrip_split s) as (sp & E & _).
  apply Hs. rewrite E. destruct (rstrip s); [done|]. done.
Qed.

Lemma rstrip_id s :
  (∀ c, last s = Some c → is_space c = false) → rstrip s = s.
Proof.
  intros Hs. unfold rstrip. rewrite lstrip_id; [apply reverse_involutive|].
  intros c. rewrite head_reverse. apply Hs.
Qed.

Lemma strip_head s c : head (strip s) = Some c → is_space c = false.
Proof. apply rstrip_head. intros d. apply lstrip_head. Qed.

Lemma strip_last s c : last (strip s) = Some c → is_space c = false.
Proof. apply rstrip_last. Qed.

Lemma strip_strip s : strip (strip s) = strip s.
Proof.
  unfold strip at 1. rewrite lstrip_id by apply strip_head.
  apply rstrip_id, strip_last.
Qed.

Lemma char_lower_word c :
  is_word c = true → is_word (char_lower c) = true ∧ is_upper (char_lower c) = false.
Proof. by_cases_on c. Qed.

Lemma char_lower_ident c :
  is_ident c = true →
  is_lower (char_lower c) || bool_decide (char_lower c = "_") = true.
Proof. by_cases_on c. Qed.

Section MoreExtractorProperties.
Context `{PyRuntime}.

Lemma extract_code_blocks_elem t b :
  b ∈ extract_code_blocks t →
  ∃ lang body,
    Forall (fun c => is_word c = true) lang ∧
    b = make_block (match lang with [] => None | _ :: _ => Some lang end) body.
Proof.
  rewrite extract_code_blocks_scan, list_elem_of_In, in_map_iff.
  intros (caps & <- & Hin%list_elem_of_In).
  apply scan_fence_elem in Hin as (lang & body & -> & Hlang).
  exists lang, body. split; [done|]. apply block_of_fence_captures.
Qed.

(** X1: the extractor returns no block exactly when the transcript
    holds no complete fenced region (a fence, an optional tag of word
    characters, a newline, any text and a fence). *)
Theorem extract_code_blocks_nil_iff t :
  extract_code_blocks t = [] ↔ ¬ contains_region t.
Proof.
  split; [|apply no_region_no_blocks].
  intros Hnil (pre & lang & body & post & Hlang & ->).
  rewrite extract_code_blocks_scan in Hnil. apply map_eq_nil in Hnil.
  pose proof (scan_with_nil_inv _ _ _ Hnil pre
    (fenced_region lang body ++ post) eq_refl) as Hm.
  cbv beta in Hm. unfold fence_match, fenced_region in Hm. revert Hm. list_norm.
  destruct (fence_at_opening lang (body ++ fence ++ post) Hlang
    (contains_fence_app body post)) as (body' & rest & ->). done.
Qed.

(** X2: every block that the extractor returns has a language tag that
    is not empty and is made of word characters none of which is an
    uppercase letter, and a content without leading or trailing white
    space, of which the hash and the keywords are computed. *)
Theorem extract_code_blocks_normalized t b :
  b ∈ extract_code_blocks t →
  language b ≠ [] ∧
  Forall (fun c => is_word c = true ∧ is_upper c = false) (language b) ∧
  (∀ c, head (content b) = Some c → is_space c = false) ∧
  (∀ c, last (content b) = Some c → is_space c = false) ∧
  strip (content b) = content b ∧
  hash b = md5_hexdigest (content b) ∧
  keywords b = extract_keywords (content b).
Proof.
  intros (lang & body & Hlang & ->)%extract_code_blocks_elem.
  unfold make_block. cbn [language content hash keywords].
  split; [by destruct lang|]. split.
  - destruct lang as [|c lang]; [by repeat constructor|].
    unfold lower. rewrite Forall_forall. intros d Hd.
    apply list_elem_of_In, in_map_iff in Hd as (d' & <- & Hd'%list_elem_of_In).
    rewrite Forall_forall in Hlang. by apply char_lower_word, Hlang.
  - split; [apply strip_head|]. split; [apply strip_last|].
    split; [apply strip_strip|done].
Qed.

(** X3: a well-formed region that follows prose without opening
    delimiter yields its block, and the extraction goes on with the text
    after the closing fence, whatever that text is. *)
Theorem extract_code_blocks_cons text lang body rest :
  has_opening text = false →
  Forall (fun c => is_word c = true) lang →
  well_formed_body body →
  extract_code_blocks (text ++ fenced_region lang body ++ rest) =
  make_block (match lang with [] => None | _ :: _ => Some lang end) body
  :: extract_code_blocks rest.
Proof.
  intros Htext Hlang Hbody. rewrite !extract_code_blocks_scan.
  unfold fenced_region. list_norm. rewrite scan_prose_fence by done.
  pose proof (scan_with_match (fun _ => fence_match) None
    (fenced_region lang body) rest (fence_captures lang body)) as Hm.
  unfold fenced_region in Hm. revert Hm. list_norm. intros ->.
  - cbn [map]. rewrite block_of_fence_captures. f_equal. f_equal.
    apply scan_fence_prev.
  - done.
  - pose proof (fence_at_region lang body rest Hlang Hbody) as Hf.
    unfold fence_match. unfold fenced_region in Hf. revert Hf.
    list_norm. by intros ->.
Qed.

(** X4: every derived keyword has at least three characters, each a
    lowercase letter or an underscore. *)
Theorem extract_keywords_shape code k :
  k ∈ extract_keywords code →
  3 ≤ length k ∧
  Forall (fun c => is_lower c || bool_decide (c = "_") = true) k.
Proof.
  intros (t & (pre & post & _ & Ht & Hlen & _) & _ & ->)%extract_keywords_elem.
  unfold lower. rewrite length_map. split; [done|].
  rewrite Forall_forall. intros c Hc.
  apply list_elem_of_In, in_map_iff in Hc as (d & <- & Hd%list_elem_of_In).
  rewrite Forall_forall in Ht. by apply char_lower_ident, Ht.
Qed.
End MoreExtractorProperties.

(** ** More on the namer and the materializer *)

Lemma join_Forall (P : ascii → Prop) sep (l : list (list ascii)) :
  Forall P sep → Forall (Forall P) l → Forall P (join sep l).
Proof.
  intros Hsep Hl. induction Hl as [|x l Hx Hl IH]; [constructor|].
  destruct l as [|y l]; [done|]. cbn [join].
  rewrite !Forall_app. eauto.
Qed.

Lemma dict_get_elem d key v : dict_get d key = Some v → (key, v) ∈ d.
Proof.
  induction d as [|[k w] d IH]; [done|]. simpl.
  case_bool_decide; [intros [= ->]; subst; by left|]. right. by apply IH.
Qed.

Lemma get_extension_chars lang :
  Forall (fun c => is_word c = true) lang →
  Forall (fun c => name_char c = true) (get_extension lang).
Proof.
  intros Hlang. unfold get_extension.
  destruct (dict_get extensions lang) as [v|] eqn:E; simpl.
  - apply dict_get_elem in E. unfold extensions in E.
    repeat (apply elem_of_cons in E as [[= _ ->]|E];
            [by apply Forall_forall; vm_compute; intros ? Hin;
                repeat (apply elem_of_cons in Hin as [->|Hin]; [done|]);
                apply elem_of_nil in Hin|]).
    by apply elem_of_nil in E.
  - constructor; [done|]. eapply Forall_impl; [done|].
    intros c Hc. unfold name_char. by rewrite Hc.
Qed.

Lemma word_name_char c : is_word c = true → name_char c = true.
Proof. intros Hc. unfold name_char. by rewrite Hc. Qed.

(** A name that starts with a word character and holds name characters
    only is one path component. *)
Lemma components_name c f :
  is_word c = true →
  Forall (fun d => name_char d = true) f →
  components (c :: f) = [c :: f] ∧ starts_with ["/"] (c :: f) = false.
Proof.
  intros Hc Hf. split.
  - apply components_single.
    + intros [<-|Hin]%elem_of_cons; [done|].
      rewrite Forall_forall in Hf. by apply Hf in Hin.
    + done.
    + intros [= -> _]. done.
  - simpl. rewrite bool_decide_eq_false_2; [done|]. by intros ->.
Qed.

Lemma path_div_name dest c f :
  is_word c = true →
  Forall (fun d => name_char d = true) f →
  path_div dest (c :: f) = (dest.1, dest.2 ++ [c :: f]) ∧
  parent (path_div dest (c :: f)) = dest.
Proof.
  intros Hc Hf. destruct (components_name c f Hc Hf) as [Hcomp Hanchor].
  unfold path_div. rewrite Hanchor, Hcomp. split; [done|].
  unfold parent. simpl. rewrite removelast_last. by destruct dest.
Qed.

Lemma name_char_not_nul c : name_char c = true → c ≠ "000".
Proof. by_cases_on c. Qed.

Lemma generate_filename_candidate fs b dest filename :
  generate_filename fs b dest = Some filename →
  path_exists fs (path_div dest filename) = false ∧
  ∃ n, filename = candidate (base_name b) (get_extension (language b)) n.
Proof.
  destruct (probe_exits fs dest (base_name b) (get_extension (language b)))
    as (n & _ & Hfree & _ & Hprobe).
  unfold generate_filename. rewrite Hprobe by done. intros [= <-]. eauto.
Qed.

Section MoreMaterializerProperties.
Context `{PyRuntime}.

(** The names made up for an extracted block. *)
Lemma candidate_extracted text b n :
  b ∈ extract_code_blocks text →
  ∃ c f,
    candidate (base_name b) (get_extension (language b)) n = c :: f ∧
    is_word c = true ∧ Forall (fun d => name_char d = true) f.
Proof.
  intros Hb.
  assert (Forall (fun d => name_char d = true)
            (get_extension (language b))) as Hext.
  { apply extract_code_blocks_elem in Hb as (lang & body & Hlang & ->).
    apply get_extension_chars. cbn [make_block language].
    destruct lang as [|c lang]; [by repeat constructor|].
    unfold lower. rewrite Forall_forall. intros d Hd.
    apply list_elem_of_In, in_map_iff in Hd as (d' & <- & Hd'%list_elem_of_In).
    rewrite Forall_forall in Hlang. by apply char_lower_word, Hlang. }
  assert (Forall (fun d => is_word d = true) (base_name b)) as Hbase.
  { unfold base_name.
    assert (Forall (fun d => is_word d = true)
              (join ["_"] (take 3 (keywords b)))) as Hj.
    { apply (join_Forall (fun d => is_word d = true)); [by repeat constructor|].
      apply Forall_take, Forall_forall. intros k Hk.
      apply extract_code_blocks_elem in Hb as (lang & body & _ & ->).
      cbn [make_block keywords] in Hk.
      apply extract_keywords_elem in Hk
        as (t & (pre & post & _ & Ht & _) & _ & ->).
      unfold lower. rewrite Forall_forall. intros d Hd.
      apply list_elem_of_In, in_map_iff in Hd as (d' & <- & Hd'%list_elem_of_In).
      rewrite Forall_forall in Ht. by apply char_lower_word, is_ident_word, Ht. }
    destruct (join ["_"] (take 3 (keywords b))); [by repeat constructor|done]. }
  pose proof (base_name_nonempty b) as Hne.
  destruct (base_name b) as [|c base]; [done|].
  inversion Hbase as [|?? Hc Hbase']; subst.
  assert (Forall (fun d => name_char d = true) base) as Hbase''.
  { eapply Forall_impl; [done|]. apply word_name_char. }
  destruct n as [|n]; cbn [candidate].
  - exists c, (base ++ get_extension (language b)).
    split; [done|]. split; [done|]. by apply Forall_app.
  - exists c, (base ++ "_" :: str_of_nat (S n) ++ get_extension (language b)).
    split; [done|]. split; [done|].
    rewrite Forall_app, Forall_cons, Forall_app. repeat split; try done.
    eapply Forall_impl; [apply str_of_nat_digits|].
    intros d Hd. unfold name_char, is_word. rewrite Hd.
    by rewrite orb_true_r.
Qed.

Lemma organize_block_extracted_run text b self fs directory fs1 :
  b ∈ extract_code_blocks text →
  determine_category self b = Return directory →
  mkdir_parents (path_div (output_dir self) directory) fs
    = (fs1, Return ()) →
  ∃ filename,
    generate_filename fs1 b (path_div (output_dir self) directory)
      = Some filename ∧
    path_div (path_div (output_dir self) directory) filename =
      ((path_div (output_dir self) directory).1,
       (path_div (output_dir self) directory).2 ++ [filename]) ∧
    organize_block self b fs =
      if fits (path_div (path_div (output_dir self) directory) filename)
      then ({| dirs := dirs fs1;
               files :=
                 <[ path_div (path_div (output_dir self) directory) filename
                    := content b ]> (files fs1) |},
            Return ())
      else (fs1, Raise OSError).
Proof.
  intros Hb Hcat Hmk.
  destruct (organize_block_run self b fs) as (d & Hd & Hrun).
  rewrite Hcat in Hd. injection Hd as <-. cbn zeta in Hrun.
  rewrite Hmk in Hrun. destruct Hrun as (filename & Hgen & _ & ->).
  exists filename. split; [done|].
  destruct (generate_filename_candidate _ _ _ _ Hgen) as (Hfree & n & ->).
  destruct (candidate_extracted text b n Hb) as (c & f & E & Hc & Hf).
  rewrite E in *.
  destruct (path_div_name (path_div (output_dir self) directory) c f Hc Hf)
    as [Hpath _].
  split; [done|]. rewrite Hpath in *.
  rewrite (write_text_fresh _ _ _ _ _ Hmk Hfree).
  - by destruct (fits _).
  - intros [<-|Hin]%elem_of_cons; [done|].
    rewrite Forall_forall in Hf. by apply Hf, name_char_not_nul in Hin.
Qed.

(** X5: for a block that the extractor returned, once the destination
    directory could be created the file name is a single path component
    and the file is a direct child of the destination directory; the
    iteration of [organize_code] then completes and writes the content of
    the block when the name and the path are within the limits of the
    file system, and ends with [OSError], the directory being created,
    when they are not. *)
Theorem organize_block_extracted text b self fs directory fs1 :
  b ∈ extract_code_blocks text →
  determine_category self b = Return directory →
  mkdir_parents (path_div (output_dir self) directory) fs
    = (fs1, Return ()) →
  ∃ filename,
    generate_filename fs1 b (path_div (output_dir self) directory)
      = Some filename ∧
    path_div (path_div (output_dir self) directory) filename =
      ((path_div (output_dir self) directory).1,
       (path_div (output_dir self) directory).2 ++ [filename]) ∧
    organize_block self b fs =
      if fits (path_div (path_div (output_dir self) directory) filename)
      then ({| dirs := dirs fs1;
               files :=
                 <[ path_div (path_div (output_dir self) directory) filename
                    := content b ]> (files fs1) |},
            Return ())
      else (fs1, Raise OSError).
Proof. apply organize_block_extracted_run. Qed.

Lemma organize_block_grows self b fs fs' r :
  organize_block self b fs = (fs', r) →
  dirs fs ⊆ dirs fs' ∧ files fs ⊆ files fs'.
Proof.
  destruct (organize_block_run self b fs) as (directory & _ & Hrun).
  cbn zeta in Hrun.
  destruct (mkdir_parents _ fs) as [fs1 [[]|e|]] eqn:Hmk; [| |done].
  - destruct Hrun as (filename & _ & Hnew & ->).
    apply mkdir_parents_files in Hmk as Hfiles.
    apply mkdir_parents_dirs in Hmk.
    destruct (write_text _ _ fs1) as [fs2|e|] eqn:Hw.
    + apply write_text_Return in Hw as ->. intros [= <- <-]. simpl.
      split; [done|]. rewrite <- Hfiles. by apply insert_subseteq.
    + intros [= <- <-]. by rewrite Hfiles.
    + intros [= <- <-]. by rewrite Hfiles.
  - rewrite Hrun. intros [= <- <-].
    split; [by eapply mkdir_parents_dirs|].
    by rewrite (mkdir_parents_files _ _ _ _ Hmk).
Qed.

Lemma organize_code_grows self blocks fs fs' r :
  organize_code self blocks fs = (fs', r) →
  dirs fs ⊆ dirs fs' ∧ files fs ⊆ files fs'.
Proof.
  revert fs. induction blocks as [|b blocks IH]; intros fs; cbn [organize_code].
  - by intros [= <- <-].
  - unfold mbind, io_bind. fold (organize_code self blocks).
    destruct (organize_block self b fs) as [fs1 r1] eqn:Hb.
    apply organize_block_grows in Hb as [Hd Hf].
    destruct r1 as [[]|e|].
    + intros [Hd' Hf']%IH. split; by etrans.
    + by intros [= <- <-].
    + by intros [= <- <-].
Qed.

(** X6: a run only adds to the file system: every directory that
    existed before the run exists after it, and every file that existed
    is still there with the content it had, whether the run completes or
    ends with an exception. *)
Theorem process_chat_only_adds self chat_file fs fs' r :
  process_chat self chat_file fs = (fs', r) →
  dirs fs ⊆ dirs fs' ∧
  ∀ p data, files fs !! p = Some data → files fs' !! p = Some data.
Proof.
  unfold process_chat, mbind, io_bind, inspect.
  destruct (read_text chat_file fs) as [text|e|].
  - intros [Hd Hf]%organize_code_grows. split; [done|].
    intros p data Hp. by eapply lookup_weaken.
  - by intros [= <- <-].
  - by intros [= <- <-].
Qed.

(** X7: a run always ends, with a value or an exception, and never with
    [IndexError]; when reading the chat file fails, the run ends with the
    exception of the read and leaves the file system untouched. *)
Theorem process_chat_outcome self chat_file fs fs' r :
  process_chat self chat_file fs = (fs', r) →
  r ≠ Diverge ∧
  r ≠ Raise IndexError ∧
  ∀ e, read_text chat_file fs = Raise e → r = Raise e ∧ fs' = fs.
Proof.
  unfold process_chat, mbind, io_bind, inspect.
  pose proof (read_text_not_Diverge chat_file fs) as Hread.
  pose proof (read_text_not_IndexError chat_file fs) as Hidx.
  destruct (read_text chat_file fs) as [text|e|] eqn:E; [| |done].
  - intros (Hdiv & Hidx' & _)%organize_code_writes. done.
  - intros [= <- <-]. split; [done|].
    split; [intros [= ->]; by apply Hidx|]. by intros e' [= <-].
Qed.



Lemma pattern_scan_elem patterns text cat :
  pattern_scan patterns text = Some cat → cat ∈ map fst patterns.
Proof.
  induction patterns as [|[c p] patterns IH]; [done|]. simpl.
  destruct (search ignorecase p text); [intros [= ->]; by left|].
  right. by apply IH.
Qed.

Lemma path_div_uncategorized (p : bool * list (list ascii)) c0 l0 :
  is_word c0 = true →
  Forall (fun d => name_char d = true) l0 →
  path_div p (chars "uncategorized/" ++ c0 :: l0) =
    (p.1, p.2 ++ [chars "uncategorized"; c0 :: l0]).
Proof.
  intros Hc0 Hl0. destruct (components_name c0 l0 Hc0 Hl0) as [Hcomp _].
  unfold path_div.
  change (starts_with ["/"] (chars "uncategorized/" ++ c0 :: l0)) with false.
  change (chars "uncategorized/" ++ c0 :: l0)
    with (chars "uncategorized" ++ "/" :: c0 :: l0).
  by rewrite components_app, Hcomp.
Qed.

(** X9: the file of an extracted block without hint line stays below the
    output root: it is written in the subdirectory named after one of
    the five categories, or in [uncategorized/<language>]. *)
Theorem organize_block_confined text b out fs fs' :
  b ∈ extract_code_blocks text →
  (∀ line, line ∈ split "010" (content b) →
           has_hint (init out) line = false) →
  organize_block (init out) b fs = (fs', Return ()) →
  ∃ sub filename,
    (sub ∈ [[chars "utils"]; [chars "models"]; [chars "services"];
            [chars "tests"]; [chars "config"]] ∨
     sub = [chars "uncategorized"; language b]) ∧
    files fs' !! ((path_of out).1, (path_of out).2 ++ sub ++ [filename])
      = Some (content b).
Proof.
  intros Hb Hhint Hrun.
  apply organize_block_Return in Hrun
    as (directory & fs1 & filename & Hdir & Hmk & Hgen & _ & _ & Hfiles).
  destruct (generate_filename_candidate _ _ _ _ Hgen) as (_ & n & ->).
  destruct (candidate_extracted text b n Hb) as (c & f & E & Hc & Hf).
  rewrite E in *.
  destruct (path_div_name (path_div (output_dir (init out)) directory) c f
    Hc Hf) as [Hpath _].
  rewrite Hpath in Hfiles.
  assert (∃ sub,
    (sub ∈ [[chars "utils"]; [chars "models"]; [chars "services"];
            [chars "tests"]; [chars "config"]] ∨
     sub = [chars "uncategorized"; language b]) ∧
    path_div (output_dir (init out)) directory =
      ((path_of out).1, (path_of out).2 ++ sub)) as (sub & Hsub & Hdest).
  { unfold determine_category in Hdir.
    rewrite hint_scan_none in Hdir by by apply Forall_forall.
    destruct (pattern_scan _ _) as [cat|] eqn:Hpat.
    - injection Hdir as <-. apply pattern_scan_elem in Hpat.
      cbn [init component_patterns map fst] in Hpat.
      exists [cat]. split.
      + left. repeat (apply elem_of_cons in Hpat as [->|Hpat];
          [by repeat (try (by left); right)|]). by apply elem_of_nil in Hpat.
      + repeat (apply elem_of_cons in Hpat as [->|Hpat]; [done|]).
        by apply elem_of_nil in Hpat.
    - injection Hdir as <-. exists [chars "uncategorized"; language b].
      split; [by right|].
      apply extract_code_blocks_elem in Hb as (lang & body & Hlang & ->).
      cbn [make_block language].
      set (tag := match match lang with [] => None | _ :: _ => Some lang end
                  with Some (c0 :: l) => c0 :: l | _ => chars "txt" end).
      assert (∃ c0 l0, lower tag = c0 :: l0 ∧ is_word c0 = true ∧
                Forall (fun d => name_char d = true) l0) as (c0 & l0 & Et & Hc0 & Hl0).
      { assert (Forall (fun d => is_word d = true) (lower tag)) as Hw.
        { unfold tag. destruct lang as [|c1 lang]; [by repeat constructor|].
          unfold lower. rewrite Forall_forall. intros d Hd.
          apply list_elem_of_In, in_map_iff in Hd
            as (d' & <- & Hd'%list_elem_of_In).
          rewrite Forall_forall in Hlang. by apply char_lower_word, Hlang. }
        assert (lower tag ≠ []) as Hne by (unfold tag; by destruct lang).
        destruct (lower tag) as [|c0 l0]; [done|].
        inversion Hw; subst. exists c0, l0. split; [done|]. split; [done|].
        eapply Forall_impl; [done|]. apply word_name_char. }
      rewrite Et. by apply path_div_uncategorized. }
  exists sub, (c :: f). split; [done|].
  rewrite Hfiles, Hdest. simpl. rewrite <- app_assoc. apply lookup_insert_eq.
Qed.
(** C9: the category of a hinted block is the stripped text between
    the first [#] of the first hint line and the next [#] (or the end
    of the line), wherever the hint marker sits; when that text is
    blank the category is empty and the destination directory is the
    output root itself.  The iteration then fails as creating the
    output root fails; once the output root is there, the file of an
    extracted block is written directly in it, unless its name or its
    path exceeds the limits of the file system. *)
Theorem determine_category_blank_hint self b pre l post before tok rest :
  split "010" (content b) = pre ++ l :: post →
  Forall (fun x => has_hint self x = false) pre →
  has_hint self l = true →
  l = before ++ "#" :: tok ++ rest →
  "#" ∉ before → "#" ∉ tok → rest = [] ∨ (∃ r, rest = "#" :: r) →
  determine_category self b = Return (strip tok) ∧
  (Forall (fun c => is_space c = true) tok →
   determine_category self b = Return [] ∧
   path_div (output_dir self) [] = output_dir self ∧
   (∀ fs fs', organize_block self b fs = (fs', Return ()) →
      ∃ fs1 filename,
        mkdir_parents (output_dir self) fs = (fs1, Return ()) ∧
        generate_filename fs1 b (output_dir self) = Some filename ∧
        dirs fs' = dirs fs1 ∧
        files fs' =
          <[ path_div (output_dir self) filename := content b ]> (files fs)) ∧
   (∀ fs fs1 e,
      mkdir_parents (output_dir self) fs = (fs1, Raise e) →
      organize_block self b fs = (fs1, Raise e)) ∧
   (∀ text fs fs1,
      b ∈ extract_code_blocks text →
      mkdir_parents (output_dir self) fs = (fs1, Return ()) →
      ∃ filename,
        generate_filename fs1 b (output_dir self) = Some filename ∧
        path_div (output_dir self) filename =
          ((output_dir self).1, (output_dir self).2 ++ [filename]) ∧
        organize_block self b fs =
          if fits (path_div (output_dir self) filename)
          then ({| dirs := dirs fs1;
                   files := <[ path_div (output_dir self) filename
                               := content b ]> (files fs1) |},
                Return ())
          else (fs1, Raise OSError))).
Proof.
  intros Hlines Hpre Hl El Hb Ht Hrest.
  pose proof (determine_category_hint self b pre l post before tok rest
    Hlines Hpre Hl El Hb Ht Hrest) as Hcat.
  split; [done|]. intros Hblank.
  assert (path_div (output_dir self) [] = output_dir self) as Hroot.
  { unfold path_div. simpl. rewrite app_nil_r. by destruct (output_dir self). }
  rewrite (strip_spaces tok Hblank) in Hcat.
  split; [done|]. split; [done|]. split; [|split].
  - intros fs fs' Hrun.
    apply organize_block_Return in Hrun
      as (directory & fs1 & filename & Hd & Hmk & Hgen & _ & Hdirs & Hfiles).
    rewrite Hcat in Hd. injection Hd as <-. rewrite Hroot in *.
    by exists fs1, filename.
  - intros fs fs1 e Hmk.
    destruct (organize_block_run self b fs) as (d & Hd & Hrun).
    rewrite Hcat in Hd. injection Hd as <-. cbn zeta in Hrun.
    rewrite Hroot in Hrun. by rewrite Hmk in Hrun.
  - intros text fs fs1 Hin Hmk.
    pose proof (organize_block_extracted_run text b self fs [] fs1 Hin Hcat)
      as Hrun.
    rewrite Hroot in Hrun. by apply Hrun.
Qed.
End MoreMaterializerProperties.

(** ** The matcher on patterns without repetition *)

Lemma last_char_app prev u1 u2 :
  last_char prev (u1 ++ u2) = last_char (last_char prev u1) u2.
Proof.
  unfold last_char. rewrite last_app. by destruct (last u2).
Qed.

Lemma words_of_seq r1 r2 w :
  w ∈ words_of (Seq r1 r2) ↔
  ∃ w1 w2, w = w1 ++ w2 ∧ w1 ∈ words_of r1 ∧ w2 ∈ words_of r2.
Proof.
  cbn [words_of]. rewrite list_elem_of_In, in_flat_map. split.
  - intros (w1 & H1%list_elem_of_In & (w2 & <- & H2%list_elem_of_In)%in_map_iff).
    eauto.
  - intros (w1 & w2 & -> & H1 & H2). exists w1.
    rewrite <- list_elem_of_In, in_map_iff. split; [done|].
    exists w2. by rewrite <- list_elem_of_In.
Qed.

Section PlainPatterns.
Context {A : Type}.
Implicit Types k : option ascii → list ascii → list (string * list ascii) → option A.

(** The matcher succeeds on a pattern without repetition exactly when
    the text starts with one of the words of the pattern and the
    continuation succeeds on what follows. *)
Lemma exec_plain fl r :
  plain r = true →
  ∀ prev s caps k,
    (∀ p t c1 c2, is_Some (k p t c1) → is_Some (k p t c2)) →
    is_Some (exec fl r prev s caps k) ↔
    ∃ w u s', w ∈ words_of r ∧ s = u ++ s' ∧ same_word fl u w ∧
              is_Some (k (last_char prev u) s' caps).
Proof.
  induction r as [|a|r1 IH1 r2 IH2|r1 IH1 r2 IH2|r1 IH1|a n g| |name r1 IH1];
    intros Hplain prev s caps k Hk; cbn [plain] in Hplain; try done.
  - cbn [exec words_of]. split.
    + intros Hs. exists [], [], s. repeat split; try done; [by left|constructor].
    + intros (w & u & s' & ->%list_elem_of_singleton & -> & Hu & Hs).
      apply Forall2_nil_inv_r in Hu as ->. done.
  - destruct a as [l| | |]; try done. cbn [exec words_of]. split.
    + destruct s as [|c s']; [by intros []|].
      destruct (atom_matches _ _ _) eqn:E; [|by intros []].
      intros Hs. exists [l], [c], s'. repeat split; try done; [by left|].
      by repeat constructor.
    + intros (w & u & s' & ->%list_elem_of_singleton & -> & Hu & Hs).
      apply Forall2_cons_inv_r in Hu as (c & u' & Hc & Hu' & ->).
      apply Forall2_nil_inv_r in Hu' as ->. cbn [app]. rewrite Hc. exact Hs.
  - apply andb_true_iff in Hplain as [Hp1 Hp2]. cbn [exec].
    assert (∀ p t c1 c2,
      is_Some (exec fl r2 p t c1 k) → is_Some (exec fl r2 p t c2 k)) as Hk2.
    { intros p t c1 c2. rewrite !(IH2 Hp2 _ _ _ k Hk).
      intros (w & u & s' & ? & ? & ? & Hs). exists w, u, s'.
      repeat split; try done. by eapply Hk. }
    rewrite (IH1 Hp1 prev s caps _ Hk2). split.
    + intros (w1 & u1 & s1 & Hw1 & -> & Hu1 & Hs).
      apply (IH2 Hp2 _ _ _ k Hk) in Hs as (w2 & u2 & s2 & Hw2 & -> & Hu2 & Hs).
      exists (w1 ++ w2), (u1 ++ u2), s2. split; [apply words_of_seq; eauto|].
      split; [by rewrite app_assoc|]. split; [by apply Forall2_app|].
      by rewrite last_char_app.
    + intros (w & u & s' & (w1 & w2 & -> & Hw1 & Hw2)%words_of_seq & -> & Hu & Hs).
      apply Forall2_app_inv_r in Hu as (u1 & u2 & Hu1 & Hu2 & ->).
      exists w1, u1, (u2 ++ s'). split; [done|].
      split; [by rewrite app_assoc|]. split; [done|].
      apply (IH2 Hp2 _ _ _ k Hk). exists w2, u2, s'.
      by rewrite <- last_char_app.
  - apply andb_true_iff in Hplain as [Hp1 Hp2]. cbn [exec words_of].
    pose proof (IH1 Hp1 prev s caps k Hk) as H1.
    pose proof (IH2 Hp2 prev s caps k Hk) as H2.
    destruct (exec fl r1 prev s caps k) as [x|].
    + split; [|by eauto]. intros _.
      destruct H1 as [(w & u & s' & ? & ? & ? & ?) _]; [by eauto|].
      exists w, u, s'. rewrite elem_of_app. eauto.
    + rewrite H2. split.
      * intros (w & u & s' & ? & ? & ? & ?). exists w, u, s'.
        rewrite elem_of_app. eauto.
      * intros (w & u & s' & [Hw|Hw]%elem_of_app & ? & ? & ?); [|by eauto 10].
        destruct H1 as [_ H1]. by destruct H1; eauto 10.
  - cbn [exec words_of]. pose proof (IH1 Hplain prev s caps k Hk) as H1.
    destruct (exec fl r1 prev s caps k) as [x|].
    + split; [|by eauto]. intros _.
      destruct H1 as [(w & u & s' & ? & ? & ? & ?) _]; [by eauto|].
      exists w, u, s'. rewrite elem_of_app. eauto.
    + split.
      * intros Hs. exists [], [], s. rewrite elem_of_app.
        repeat split; try done; [right; by left|constructor].
      * intros (w & u & s' & [Hw|Hw%list_elem_of_singleton]%elem_of_app
                & -> & Hu & Hs).
        -- destruct H1 as [_ H1]. by destruct H1; eauto 10.
        -- subst w. apply Forall2_nil_inv_r in Hu as ->. done.
  - cbn [exec words_of]. rewrite (IH1 Hplain).
    + split; intros (w & u & s' & ? & ? & ? & Hs); exists w, u, s';
        repeat split; try done; by eapply Hk.
    + intros p t c1 c2. apply Hk.
Qed.
End PlainPatterns.

Lemma search_from_true fl r prev s :
  search_from fl r prev s = true ↔
  ∃ s1 s2, s = s1 ++ s2 ∧ is_Some (match_here fl r (last_char prev s1) s2).
Proof.
  revert prev. induction s as [|c s IH]; intros prev; cbn [search_from].
  - destruct (match_here fl r prev []) as [x|] eqn:E.
    + split; [|done]. intros _. exists [], []. split; [done|].
      change (last_char prev []) with prev. by rewrite E.
    + split; [done|]. intros (s1 & s2 & E' & Hs). symmetry in E'.
      apply app_eq_nil in E' as [-> ->].
      change (last_char prev []) with prev in Hs. rewrite E in Hs.
      by destruct Hs.
  - destruct (match_here fl r prev (c :: s)) as [x|] eqn:E.
    + split; [|done]. intros _. exists [], (c :: s). split; [done|].
      change (last_char prev []) with prev. by rewrite E.
    + rewrite IH. split.
      * intros (s1 & s2 & -> & Hs). exists (c :: s1), s2.
        by rewrite (last_char_cons prev).
      * intros (s1 & s2 & E' & Hs). destruct s1 as [|d s1].
        -- simpl in E'. subst s2.
           change (last_char prev []) with prev in Hs. rewrite E in Hs.
           by destruct Hs.
        -- injection E' as <- ->. exists s1, s2.
           by rewrite <- (last_char_cons prev).
Qed.

Lemma match_here_whole_word fl l prev s :
  plain (alts l) = true →
  is_Some (match_here fl (whole_word l) prev s) ↔
  at_boundary prev s = true ∧
  ∃ w u s', w ∈ words_of (alts l) ∧ s = u ++ s' ∧ same_word fl u w ∧
            at_boundary (last_char prev u) s' = true.
Proof.
  intros Hplain. unfold match_here, whole_word. cbn [exec].
  destruct (at_boundary prev s); [|split; [by intros []|by intros []]].
  rewrite (exec_plain fl (alts l) Hplain).
  - split.
    + intros (w & u & s' & ? & ? & ? & Hs). split; [done|].
      exists w, u, s'. repeat split; try done.
      by destruct (at_boundary _ s'); [|destruct Hs].
    + intros (_ & w & u & s' & ? & ? & ? & Hs). exists w, u, s'.
      by rewrite Hs.
  - intros p t c1 c2. by destruct (at_boundary p t).
Qed.

Lemma char_lower_is_word c : is_word (char_lower c) = is_word c.
Proof. by_cases_on c. Qed.

Lemma same_word_lower u w : same_word ignorecase u w ↔ lower u = lower w.
Proof.
  unfold same_word, lower. cbn [atom_matches ignorecase IGNORECASE]. split.
  - induction 1 as [|c l u w Hc _ IH]; [done|].
    apply bool_decide_eq_true in Hc. simpl. by rewrite Hc, IH.
  - revert w. induction u as [|c u IH]; intros [|l w]; try done.
    simpl. intros [= Hc Hu]. constructor; [by apply bool_decide_eq_true|].
    by apply IH.
Qed.

Lemma lower_word u w :
  lower u = lower w →
  Forall (fun c => is_word c = true) w → Forall (fun c => is_word c = true) u.
Proof.
  unfold lower. revert w. induction u as [|c u IH]; intros [|l w]; try done.
  simpl. intros [= Hc Hu] Hw. inversion Hw as [|?? Hl Hw']; subst.
  constructor; [|by eapply IH].
  by rewrite <- char_lower_is_word, Hc, char_lower_is_word.
Qed.

(** A pattern [\b(...)\b] of words made of word characters is found in
    a text exactly where one of its words, letter case apart, stands
    between two characters that are not word characters (or an end of
    the text). *)
Lemma search_whole_word_occurrence l text :
  plain (alts l) = true →
  Forall (fun w => w ≠ [] ∧ Forall (fun c => is_word c = true) w)
         (words_of (alts l)) →
  search ignorecase (whole_word l) text = true ↔
  ∃ pre u post w,
    text = pre ++ u ++ post ∧ w ∈ words_of (alts l) ∧ lower u = lower w ∧
    word_before (last pre) = false ∧ word_after post = false.
Proof.
  intros Hplain Hwords. rewrite Forall_forall in Hwords.
  unfold search. rewrite search_from_true.
  setoid_rewrite (match_here_whole_word ignorecase l _ _ Hplain).
  assert (∀ pre u post w,
    w ∈ words_of (alts l) → lower u = lower w →
    (at_boundary (last_char None pre) (u ++ post) = true ∧
     at_boundary (last_char (last_char None pre) u) post = true) ↔
    (word_before (last pre) = false ∧ word_after post = false)) as Hb.
  { intros pre u post w Hw Hu. destruct (Hwords w Hw) as [Hne Hword].
    pose proof (lower_word u w Hu Hword) as Huw.
    assert (last_char None pre = last pre) as -> by
      (unfold last_char; by destruct (last pre)).
    destruct u as [|c u]; [by destruct w|].
    assert (word_before (last_char (last pre) (c :: u)) = true) as Hl.
    { unfold last_char. destruct (last (c :: u)) as [d|] eqn:Hd.
      - apply last_Some_elem_of in Hd. rewrite Forall_forall in Huw.
        simpl. by apply Huw.
      - by apply last_None in Hd. }
    inversion Huw as [|?? Hc _]; subst.
    unfold at_boundary. rewrite Hl. simpl. rewrite Hc.
    destruct (word_before (last pre)), (word_after post); simpl; split; intros [? ?]; by split. }
  split.
  - intros (pre & s2 & -> & Hb1 & w & u & post & Hw & -> & Hu & Hb2).
    apply same_word_lower in Hu. exists pre, u, post, w.
    split; [done|]. split; [done|]. split; [done|]. by eapply Hb.
  - intros (pre & u & post & w & -> & Hw & Hu & Hb12).
    apply (Hb pre u post w Hw Hu) in Hb12 as [Hb1 Hb2].
    exists pre, (u ++ post). split; [done|]. split; [done|].
    exists w, u, post. by rewrite same_word_lower.
Qed.

(** ** Whole words among the keywords *)

Lemma join_cons sep (x : list ascii) l :
  join sep (x :: l) =
    x ++ match l with [] => [] | _ :: _ => sep ++ join sep l end.
Proof. destruct l; simpl; [by rewrite app_nil_r|done]. Qed.

Lemma word_run_unique (u k post t : list ascii) :
  Forall (fun c => is_word c = true) u →
  Forall (fun c => is_word c = true) k →
  word_after post = false → word_after t = false →
  u ++ post = k ++ t → u = k.
Proof.
  intros Hu. revert k. induction Hu as [|c u Hc _ IH]; intros k Hk Hp Ht E.
  - destruct Hk as [|d k Hd _]; [done|]. simpl in E. subst post.
    simpl in Hp. congruence.
  - destruct Hk as [|d k Hd Hk].
    + simpl in E. subst t. simpl in Ht. congruence.
    + injection E as -> E. f_equal. by apply IH.
Qed.

Lemma word_last (k : list ascii) :
  k ≠ [] → Forall (fun c => is_word c = true) k →
  word_before (last k) = true.
Proof.
  intros Hne Hk. destruct (last k) as [d|] eqn:E.
  - apply last_Some_elem_of in E. rewrite Forall_forall in Hk. by apply Hk.
  - by apply last_None in E.
Qed.

(** A word that stands in the joined keywords between two characters
    that are not word characters is one of the keywords. *)
Lemma join_word_inv kws pre u post :
  Forall (fun k => k ≠ [] ∧ Forall (fun c => is_word c = true) k) kws →
  join [" "] kws = pre ++ u ++ post →
  u ≠ [] → Forall (fun c => is_word c = true) u →
  word_before (last pre) = false → word_after post = false →
  u ∈ kws.
Proof.
  intros Hk. revert pre.
  induction Hk as [|k rest [Hne Hw] Hrest IH]; intros pre E Hu Huw Hb Ha.
  - simpl in E. symmetry in E. apply app_eq_nil in E as [_ E].
    by apply app_eq_nil in E as [-> _].
  - rewrite join_cons in E.
    assert (word_after
      (match rest with [] => [] | _ :: _ => [" "] ++ join [" "] rest end)
      = false) as Ht by (by destruct rest).
    apply app_eq_app in E as [l [[E1 E2]|[E1 E2]]].
    + destruct pre as [|p pre].
      * simpl in E1. subst l. apply elem_of_cons. left.
        exact (word_run_unique u k post _ Huw Hw Ha Ht E2).
      * exfalso. rewrite word_last in Hb; [done|done|].
        rewrite E1 in Hw. by apply Forall_app in Hw as [? _].
    + destruct l as [|c l].
      * exfalso. rewrite app_nil_r in E1. subst pre.
        by rewrite word_last in Hb.
      * destruct rest as [|r rest]; [done|].
        injection E2 as <- E2. apply elem_of_cons. right.
        apply (IH l); try done.
        subst pre. rewrite last_app in Hb.
        destruct l as [|d l]; [done|].
        rewrite last_cons_cons in Hb.
        by destruct (last (d :: l)) eqn:El; [|apply last_None in El].
Qed.

(** Every keyword stands in the joined keywords between two characters
    that are not word characters. *)
Lemma join_word kws (k : list ascii) :
  k ∈ kws →
  ∃ pre post, join [" "] kws = pre ++ k ++ post ∧
              word_before (last pre) = false ∧ word_after post = false.
Proof.
  induction kws as [|k0 rest IH]; [by intros ?%elem_of_nil|].
  intros [->|Hin]%elem_of_cons; rewrite join_cons.
  - exists [], (match rest with [] => [] | _ :: _ => [" "] ++ join [" "] rest end).
    by destruct rest.
  - destruct (IH Hin) as (pre & post & E & Hb & Ha).
    destruct rest as [|r rest]; [by apply elem_of_nil in Hin|].
    rewrite E. exists (k0 ++ " " :: pre), post.
    split; [by rewrite <- !app_assoc|]. split; [|done].
    rewrite last_app. destruct pre as [|d pre]; [done|].
    rewrite last_cons_cons.
    by destruct (last (d :: pre)) eqn:El; [|apply last_None in El].
Qed.

Lemma search_whole_word_join l kws :
  plain (alts l) = true →
  Forall (fun w => w ≠ [] ∧ Forall (fun c => is_word c = true) w)
         (words_of (alts l)) →
  Forall (fun k => k ≠ [] ∧ Forall (fun c => is_word c = true) k) kws →
  search ignorecase (whole_word l) (join [" "] kws) =
    has_word (words_of (alts l)) kws.
Proof.
  intros Hplain Hwords Hkws. apply Bool.eq_iff_eq_true.
  rewrite (search_whole_word_occurrence l _ Hplain Hwords).
  unfold has_word. rewrite existsb_exists. setoid_rewrite existsb_exists.
  rewrite Forall_forall in Hwords. split.
  - intros (pre & u & post & w & E & Hw & Hu & Hb & Ha).
    destruct (Hwords w Hw) as [Hne Hword].
    exists u. split.
    + apply list_elem_of_In. apply (join_word_inv kws pre u post); try done.
      * intros ->. by destruct w.
      * by eapply lower_word.
    + exists w. split; [by apply list_elem_of_In|].
      by apply bool_decide_eq_true.
  - intros (k & Hk%list_elem_of_In & w & Hw%list_elem_of_In
              & Hkw%bool_decide_eq_true).
    destruct (join_word kws k Hk) as (pre & post & E & Hb & Ha).
    by exists pre, k, post, w.
Qed.

Lemma pattern_scan_table (table : list (list ascii * list regex)) kws :
  Forall (fun x =>
    plain (alts x.2) = true ∧
    Forall (fun w => w ≠ [] ∧ Forall (fun c => is_word c = true) w)
           (words_of (alts x.2))) table →
  Forall (fun k => k ≠ [] ∧ Forall (fun c => is_word c = true) k) kws →
  pattern_scan (map (fun x => (x.1, whole_word x.2)) table) (join [" "] kws) =
    keyword_category (map (fun x => (x.1, words_of (alts x.2))) table) kws.
Proof.
  intros Htable Hkws.
  induction Htable as [|[cat l] table [Hplain Hwords] _ IH]; [done|].
  cbn [map pattern_scan keyword_category fst snd].
  rewrite (search_whole_word_join l kws Hplain Hwords Hkws).
  by rewrite IH.
Qed.

Lemma category_alts_plain :
  Forall (fun x =>
    plain (alts x.2) = true ∧
    Forall (fun w => w ≠ [] ∧ Forall (fun c => is_word c = true) w)
           (words_of (alts x.2))) category_alts.
Proof.
  unfold category_alts.
  repeat (apply Forall_cons_2 || apply Forall_nil_2 || split);
    try reflexivity; done.
Qed.

Lemma pattern_scan_init out kws :
  Forall (fun k => k ≠ [] ∧ Forall (fun c => is_word c = true) k) kws →
  pattern_scan (component_patterns (init out)) (join [" "] kws) =
    keyword_category category_words kws.
Proof.
  intros Hkws.
  change (component_patterns (init out))
    with (map (fun x => (x.1, whole_word x.2)) category_alts).
  rewrite (pattern_scan_table _ kws category_alts_plain Hkws).
  reflexivity.
Qed.

Section MoreClassifierProperties.
Context `{PyRuntime}.

(** A block without hint line whose keywords are non-empty runs of
    word characters is classified by the table of words. *)
Lemma determine_category_keywords out (b : Block) :
  (∀ line, line ∈ split "010" (content b) → has_hint (init out) line = false) →
  Forall (fun k => k ≠ [] ∧ Forall (fun c => is_word c = true) k)
         (keywords b) →
  determine_category (init out) b =
    Return (default (chars "uncategorized/" ++ language b)
                    (keyword_category category_words (keywords b))).
Proof.
  intros Hlines Hkws. unfold determine_category.
  rewrite hint_scan_none by (by apply Forall_forall).
  rewrite (pattern_scan_init out _ Hkws).
  by destruct (keyword_category category_words (keywords b)).
Qed.

Lemma extract_keywords_words code :
  Forall (fun k => k ≠ [] ∧ Forall (fun c => is_word c = true) k)
         (extract_keywords code).
Proof.
  apply Forall_forall. intros k Hin. split.
  - intros ->. by apply extract_keywords_nonempty in Hin.
  - apply extract_keywords_elem in Hin
      as (t & (pre & post & _ & Ht & _) & _ & ->).
    unfold lower. rewrite Forall_forall. intros c Hc.
    apply list_elem_of_In, in_map_iff in Hc as (d & <- & Hd%list_elem_of_In).
    rewrite Forall_forall in Ht. rewrite char_lower_is_word.
    by apply is_ident_word, Ht.
Qed.

(** X10: each of the five patterns of [__init__] is found in a text
    exactly where one of the words of its category, letter case apart,
    stands between two characters that are not word characters (or an
    end of the text). *)
Theorem component_patterns_words out cat pat :
  (cat, pat) ∈ component_patterns (init out) →
  ∃ ws,
    (cat, ws) ∈ category_words ∧
    ∀ text,
      search ignorecase pat text = true ↔
      ∃ pre u post w,
        text = pre ++ u ++ post ∧ w ∈ ws ∧ lower u = lower w ∧
        word_before (last pre) = false ∧ word_after post = false.
Proof.
  change (component_patterns (init out))
    with (map (fun x => (x.1, whole_word x.2)) category_alts).
  intros (x & [= -> ->] & Hx)%list_elem_of_fmap.
  exists (words_of (alts x.2)). split.
  - change category_words
      with (map (fun x => (x.1, words_of (alts x.2))) category_alts).
    apply list_elem_of_fmap. by exists x.
  - intros text. pose proof category_alts_plain as Hall.
    rewrite Forall_forall in Hall. destruct (Hall x Hx) as [Hplain Hwords].
    by apply search_whole_word_occurrence.
Qed.

(** X11: an extracted block without hint line is put in the first
    category of the table utils, models, services, tests, config one of
    whose words is a keyword of the block, whatever the order in which
    the set of keywords is listed; and in uncategorized/<language> when
    no category has such a word. *)
Theorem determine_category_extracted text out (b : Block) :
  b ∈ extract_code_blocks text →
  (∀ line, line ∈ split "010" (content b) → has_hint (init out) line = false) →
  determine_category (init out) b =
    Return (default (chars "uncategorized/" ++ language b)
                    (keyword_category category_words
                       (extract_keywords (content b)))).
Proof.
  intros (lang & body & _ & ->)%extract_code_blocks_elem Hlines.
  rewrite determine_category_keywords; [done|done|].
  apply extract_keywords_words.
Qed.
End MoreClassifierProperties.

(** * The properties on the sample inputs *)

Lemma determine_category_hint_first_witness :
  pattern_scan (component_patterns default_organizer)
    (join [" "] (keywords hinted_block)) = Some (chars "models") ∧
  ∃ t, split "#" (chars "#tests") !! 1%nat = Some t ∧
       determine_category default_organizer hinted_block = Return (strip t) ∧
       hint_scan default_organizer (split "010" (content hinted_block))
         = Some (Return (strip t)).
Proof.
  split; [by vm_compute|].
  apply (determine_category_hint_first default_organizer hinted_block
           [] (chars "#tests") [chars "models = load()"]).
  - by vm_compute.
  - constructor.
  - by vm_compute.
Defined.

Lemma generate_filename_unique_witness :
  ([] ∉ keywords hinted_block) ∧
  ∃ name n,
    generate_filename busy_fs hinted_block (path_of (chars "out")) = Some name ∧
    path_exists busy_fs (path_div (path_of (chars "out")) name) = false ∧
    name = candidate (chars "tests_models_load") (chars ".py") n ∧
    (∀ m, m < n →
       path_exists busy_fs
         (path_div (path_of (chars "out"))
            (candidate (chars "tests_models_load") (chars ".py") m)) = true) ∧
    (path_exists busy_fs
       (path_div (path_of (chars "out")) (chars "tests_models_load.py")) = true →
     path_exists busy_fs
       (path_div (path_of (chars "out")) (chars "tests_models_load_1.py")) = false →
     name = chars "tests_models_load_1.py").
Proof.
  assert ([] ∉ keywords hinted_block) as Hk.
  { vm_compute. intros Hin. repeat (apply elem_of_cons in Hin as [?|Hin]; [done|]).
    by apply elem_of_nil in Hin. }
  split; [done|].
  exact (generate_filename_unique busy_fs hinted_block (path_of (chars "out")) Hk).
Defined.

Lemma extract_code_blocks_regions_witness :
  Forall valid_segment sample_segments ∧
  has_opening [] = false ∧
  unterminated_last sample_segments [] = true ∧
  @extract_code_blocks sample_runtime (transcript sample_segments []) =
  @expected_blocks sample_runtime sample_segments.
Proof.
  assert (Forall valid_segment sample_segments) as Hvalid.
  { repeat (constructor; [split; [by vm_compute|split;
      [by repeat constructor|by vm_compute]]|]). constructor. }
  split; [done|]. split; [done|]. split; [done|].
  by apply (@extract_code_blocks_regions sample_runtime).
Defined.

(** C3 as stated fails: an unterminated region that comes before a closed
    one takes the opening fence of the closed one for its closing fence. *)
Lemma extract_unterminated_first_counterexample :
  ¬ (∀ (R : PyRuntime) segs tail,
       Forall valid_segment segs →
       has_opening tail = false →
       @extract_code_blocks R (transcript segs tail) = @expected_blocks R segs).
Proof.
  intros Hclaim.
  specialize (Hclaim sample_runtime unterminated_first []).
  assert (Forall valid_segment unterminated_first) as Hvalid.
  { repeat (constructor; [split; [by vm_compute|split;
      [by repeat constructor|by vm_compute]]|]). constructor. }
  specialize (Hclaim Hvalid eq_refl). vm_compute in Hclaim. discriminate Hclaim.
Qed.

Lemma determine_category_hint_verbatim_witness :
  determine_category default_organizer capital_block = Return (chars "Tests") ∧
  determine_category default_organizer capital_block ≠ Return (chars "tests").
Proof.
  assert ("#" ∉ chars "x = 1  ") as Hbefore.
  { vm_compute. intros Hin.
    repeat (apply elem_of_cons in Hin as [?|Hin]; [done|]).
    by apply elem_of_nil in Hin. }
  assert ("#" ∉ chars "Tests") as Htok.
  { vm_compute. intros Hin.
    repeat (apply elem_of_cons in Hin as [?|Hin]; [done|]).
    by apply elem_of_nil in Hin. }
  destruct (determine_category_hint_verbatim default_organizer capital_block
              [] (chars "x = 1  #Tests") [] (chars "x = 1  ") (chars "Tests") []
              eq_refl (Forall_nil_2 _) eq_refl eq_refl Hbefore Htok
              (or_introl eq_refl)) as [Hcat Hcase].
  split; [exact Hcat|]. apply Hcase. by vm_compute.
Defined.

Lemma determine_category_total_witness :
  determine_category default_organizer ruby_block =
    Return (chars "uncategorized/ruby").
Proof.
  apply (proj2 (determine_category_total default_organizer ruby_block)).
  - intros line Hin. vm_compute in Hin.
    repeat (apply elem_of_cons in Hin as [->|Hin]; [by vm_compute|]).
    by apply elem_of_nil in Hin.
  - intros cat pat Hin. unfold default_organizer, init in Hin.
    cbn [component_patterns] in Hin.
    repeat (apply elem_of_cons in Hin as [[= -> ->]|Hin]; [by vm_compute|]).
    by apply elem_of_nil in Hin.
Defined.

Lemma extract_keywords_tokens_witness :
  NoDup (@extract_keywords sample_runtime (chars "def foo_bar MAX_SIZE")) ∧
  ∀ k, k ∈ @extract_keywords sample_runtime (chars "def foo_bar MAX_SIZE") ↔
       ∃ t, is_token (chars "def foo_bar MAX_SIZE") t ∧
            ¬ entirely_uppercase t ∧ k = lower t.
Proof. exact (@extract_keywords_tokens sample_runtime (chars "def foo_bar MAX_SIZE")). Defined.

Lemma process_chat_round_trip_witness :
  (@process_chat sample_runtime default_organizer
     (chars "chat_history.txt") chat_fs).2 = Return () ∧
  files (@process_chat sample_runtime default_organizer
           (chars "chat_history.txt") chat_fs).1
    !! path_of (chars "organized_code/tests/tests_models_load.py")
    = Some (chars "#tests" ++ LF :: chars "models = load()") ∧
  files (@process_chat sample_runtime default_organizer
           (chars "chat_history.txt") chat_fs).1
    !! path_of (chars "organized_code/uncategorized/txt/raw_text.txt")
    = Some (chars "raw text") ∧
  ∃ paths,
    length paths = 2 ∧
    NoDup paths ∧
    Forall (fun p => files chat_fs !! p = None) paths ∧
    Forall2 (fun p m =>
               files (@process_chat sample_runtime default_organizer
                        (chars "chat_history.txt") chat_fs).1 !! p
               = Some (strip (default [] (group "code" m))))
            paths (finditer dotall code_block_re sample_chat) ∧
    (∀ q, q ∉ paths →
       files (@process_chat sample_runtime default_organizer
                (chars "chat_history.txt") chat_fs).1 !! q
       = files chat_fs !! q).
Proof.
  assert ((@process_chat sample_runtime default_organizer
             (chars "chat_history.txt") chat_fs).2 = Return ()) as Hr
    by (by vm_compute).
  split; [done|]. split; [by vm_compute|]. split; [by vm_compute|].
  destruct (@process_chat_round_trip sample_runtime default_organizer
              (chars "chat_history.txt") chat_fs sample_chat
              (@process_chat sample_runtime default_organizer
                 (chars "chat_history.txt") chat_fs).1
              (@process_chat sample_runtime default_organizer
                 (chars "chat_history.txt") chat_fs).2)
    as (_ & paths & Hnd & Hfresh & Hcont & Hlen & _ & Hframe).
  - by vm_compute.
  - by destruct (process_chat _ _ _).
  - specialize (Hlen Hr). exists paths.
    rewrite Hlen, firstn_all in Hcont.
    split; [rewrite Hlen; by vm_compute|].
    split; [exact Hnd|]. split; [exact Hfresh|]. split; [exact Hcont|].
    exact Hframe.
Defined.

Lemma generate_filename_terminates_witness :
  ∃ n,
    n ≤ S (size (entries busy_fs)) ∧
    path_exists busy_fs
      (path_div (path_of (chars "out"))
         (candidate (base_name hinted_block)
            (get_extension (language hinted_block)) n)) = false ∧
    (∀ fuel, probe_fuel busy_fs ≤ fuel →
       probe busy_fs (path_of (chars "out")) (base_name hinted_block)
         (get_extension (language hinted_block)) fuel
         (base_name hinted_block ++ get_extension (language hinted_block)) 1
       = Some (candidate (base_name hinted_block)
                 (get_extension (language hinted_block)) n)) ∧
    generate_filename busy_fs hinted_block (path_of (chars "out"))
      = Some (candidate (base_name hinted_block)
                (get_extension (language hinted_block)) n).
Proof.
  exact (proj2 (generate_filename_terminates busy_fs hinted_block
                  (path_of (chars "out")))).
Defined.

Lemma determine_category_blank_hint_witness :
  blank_block ∈ @extract_code_blocks sample_runtime blank_chat ∧
  determine_category default_organizer blank_block = Return [] ∧
  (@organize_block sample_runtime default_organizer blank_block empty_fs).2
    = Return () ∧
  files (@organize_block sample_runtime default_organizer blank_block
           empty_fs).1
    !! path_of (chars "organized_code/tests.txt")
    = Some (content blank_block) ∧
  ∃ fs1 filename,
    @mkdir_parents sample_runtime (output_dir default_organizer) empty_fs
      = (fs1, Return ()) ∧
    generate_filename fs1 blank_block (output_dir default_organizer)
      = Some filename ∧
    path_div (output_dir default_organizer) filename =
      ((output_dir default_organizer).1,
       (output_dir default_organizer).2 ++ [filename]) ∧
    @organize_block sample_runtime default_organizer blank_block empty_fs =
      if @fits sample_runtime (path_div (output_dir default_organizer) filename)
      then ({| dirs := dirs fs1;
               files := <[ path_div (output_dir default_organizer) filename
                           := content blank_block ]> (files fs1) |},
            Return ())
      else (fs1, Raise OSError).
Proof.
  assert (blank_block ∈ @extract_code_blocks sample_runtime blank_chat)
    as Hin by (vm_compute; by left).
  split; [done|]. split; [by vm_compute|]. split; [by vm_compute|].
  split; [by vm_compute|].
  destruct (@mkdir_parents sample_runtime (output_dir default_organizer)
              empty_fs) as [fs1 r1] eqn:Hmk.
  assert (r1 = Return ()) as ->.
  { assert ((@mkdir_parents sample_runtime (output_dir default_organizer)
               empty_fs).2 = Return ()) as Hr by (by vm_compute).
    by rewrite Hmk in Hr. }
  exists fs1.
  destruct (@determine_category_blank_hint sample_runtime default_organizer
              blank_block [] (chars "# #tests") [] [] [" "] (chars "#tests")
              ltac:(by vm_compute) ltac:(constructor) ltac:(by vm_compute)
              ltac:(by vm_compute) ltac:(apply not_elem_of_nil)
              ltac:(by apply not_elem_of_cons; split; [|apply not_elem_of_nil])
              ltac:(right; by eexists)) as [_ Hblank].
  destruct (Hblank ltac:(by repeat constructor)) as (_ & _ & _ & _ & Hrun).
  destruct (Hrun blank_chat empty_fs fs1 Hin Hmk) as (filename & Hgen & Hp & Ho).
  exists filename. split; [reflexivity|]. split; [exact Hgen|].
  split; [exact Hp|exact Ho].
Defined.

Lemma process_chat_no_region_witness :
  @process_chat sample_runtime default_organizer
    (chars "chat_history.txt") plain_fs = (plain_fs, Return ()).
Proof.
  apply (@process_chat_no_region sample_runtime default_organizer
           (chars "chat_history.txt") plain_fs (chars "no code here")).
  - by vm_compute.
  - intros (pre & lang & body & post & _ & E).
    assert ("`" ∈ chars "no code here") as Hin.
    { rewrite E. unfold fenced_region. rewrite !elem_of_app. right. left. left.
      by left. }
    vm_compute in Hin.
    repeat (apply elem_of_cons in Hin as [?|Hin]; [done|]).
    by apply elem_of_nil in Hin.
Defined.

Lemma extract_code_blocks_normalized_witness :
  hinted_block ∈ @extract_code_blocks sample_runtime sample_chat ∧
  language hinted_block ≠ [] ∧
  Forall (fun c => is_word c = true ∧ is_upper c = false)
         (language hinted_block) ∧
  (∀ c, head (content hinted_block) = Some c → is_space c = false) ∧
  (∀ c, last (content hinted_block) = Some c → is_space c = false) ∧
  strip (content hinted_block) = content hinted_block ∧
  hash hinted_block = @md5_hexdigest sample_runtime (content hinted_block) ∧
  keywords hinted_block =
    @extract_keywords sample_runtime (content hinted_block).
Proof.
  assert (hinted_block ∈ @extract_code_blocks sample_runtime sample_chat)
    as Hin by (vm_compute; by left).
  split; [done|].
  exact (@extract_code_blocks_normalized sample_runtime sample_chat
           hinted_block Hin).
Defined.

Lemma extract_code_blocks_cons_witness :
  has_opening (chars "see ") = false ∧
  @extract_code_blocks sample_runtime
    (chars "see " ++ fenced_region (chars "python") (chars "x = 1" ++ [LF])
       ++ chars " and ```" ++ LF :: chars "raw```") =
  @make_block sample_runtime (Some (chars "python")) (chars "x = 1" ++ [LF])
  :: @extract_code_blocks sample_runtime
       (chars " and ```" ++ LF :: chars "raw```").
Proof.
  split; [done|].
  apply (@extract_code_blocks_cons sample_runtime (chars "see ")
           (chars "python") (chars "x = 1" ++ [LF])).
  - done.
  - by repeat constructor.
  - split; by vm_compute.
Defined.

Lemma extract_keywords_shape_witness :
  chars "foo_bar" ∈ @extract_keywords sample_runtime
                      (chars "def foo_bar MAX_SIZE") ∧
  3 ≤ length (chars "foo_bar") ∧
  Forall (fun c => is_lower c || bool_decide (c = "_") = true)
         (chars "foo_bar").
Proof.
  assert (chars "foo_bar" ∈ @extract_keywords sample_runtime
                              (chars "def foo_bar MAX_SIZE")) as Hin
    by (vm_compute; right; by left).
  split; [done|].
  exact (@extract_keywords_shape sample_runtime _ _ Hin).
Defined.

Lemma organize_block_extracted_witness :
  long_block ∈ @extract_code_blocks sample_runtime long_chat ∧
  determine_category default_organizer long_block
    = Return (chars "uncategorized/python") ∧
  (@organize_block sample_runtime default_organizer long_block empty_fs).2
    = Raise OSError ∧
  is_dir (@organize_block sample_runtime default_organizer long_block
            empty_fs).1
    (path_of (chars "organized_code/uncategorized/python")) = true ∧
  ∃ fs1 filename,
    @mkdir_parents sample_runtime
      (path_div (output_dir default_organizer) (chars "uncategorized/python"))
      empty_fs = (fs1, Return ()) ∧
    generate_filename fs1 long_block
      (path_div (output_dir default_organizer) (chars "uncategorized/python"))
      = Some filename ∧
    path_div
      (path_div (output_dir default_organizer) (chars "uncategorized/python"))
      filename =
      ((path_div (output_dir default_organizer)
          (chars "uncategorized/python")).1,
       (path_div (output_dir default_organizer)
          (chars "uncategorized/python")).2 ++ [filename]) ∧
    @organize_block sample_runtime default_organizer long_block empty_fs =
      if @fits sample_runtime
           (path_div
              (path_div (output_dir default_organizer)
                 (chars "uncategorized/python")) filename)
      then ({| dirs := dirs fs1;
               files :=
                 <[ path_div
                      (path_div (output_dir default_organizer)
                         (chars "uncategorized/python")) filename
                    := content long_block ]> (files fs1) |},
            Return ())
      else (fs1, Raise OSError).
Proof.
  assert (long_block ∈ @extract_code_blocks sample_runtime long_chat)
    as Hin by (vm_compute; by left).
  assert (determine_category default_organizer long_block
            = Return (chars "uncategorized/python")) as Hcat
    by (by vm_compute).
  split; [done|]. split; [done|]. split; [by vm_compute|].
  split; [by vm_compute|].
  destruct (@mkdir_parents sample_runtime
              (path_div (output_dir default_organizer)
                 (chars "uncategorized/python")) empty_fs)
    as [fs1 r1] eqn:Hmk.
  assert (r1 = Return ()) as ->.
  { assert ((@mkdir_parents sample_runtime
               (path_div (output_dir default_organizer)
                  (chars "uncategorized/python")) empty_fs).2 = Return ())
      as Hr by (by vm_compute).
    by rewrite Hmk in Hr. }
  exists fs1.
  destruct (@organize_block_extracted sample_runtime long_chat long_block
              default_organizer empty_fs (chars "uncategorized/python") fs1
              Hin Hcat Hmk) as (filename & Hgen & Hp & Ho).
  exists filename. split; [reflexivity|]. split; [exact Hgen|].
  split; [exact Hp|exact Ho].
Defined.

Lemma process_chat_only_adds_witness :
  dirs chat_fs ⊆
    dirs (@process_chat sample_runtime default_organizer
            (chars "chat_history.txt") chat_fs).1 ∧
  ∀ p data,
    files chat_fs !! p = Some data →
    files (@process_chat sample_runtime default_organizer
             (chars "chat_history.txt") chat_fs).1 !! p = Some data.
Proof.
  apply (@process_chat_only_adds sample_runtime default_organizer
           (chars "chat_history.txt") chat_fs _
           (@process_chat sample_runtime default_organizer
              (chars "chat_history.txt") chat_fs).2).
  by destruct (process_chat _ _ _).
Defined.

Lemma process_chat_outcome_witness :
  @read_text sample_runtime (chars "chat_history.txt/x") chat_fs
    = Raise NotADirectoryError ∧
  (@process_chat sample_runtime default_organizer
     (chars "chat_history.txt/x") chat_fs).2 = Raise NotADirectoryError ∧
  (@process_chat sample_runtime default_organizer
     (chars "chat_history.txt/x") chat_fs).1 = chat_fs.
Proof.
  assert (@read_text sample_runtime (chars "chat_history.txt/x") chat_fs
            = Raise NotADirectoryError) as Hread by (by vm_compute).
  split; [done|].
  destruct (@process_chat_outcome sample_runtime default_organizer
              (chars "chat_history.txt/x") chat_fs
              (@process_chat sample_runtime default_organizer
                 (chars "chat_history.txt/x") chat_fs).1
              (@process_chat sample_runtime default_organizer
                 (chars "chat_history.txt/x") chat_fs).2)
    as (_ & _ & Hfail).
  - by destruct (process_chat _ _ _).
  - exact (Hfail NotADirectoryError Hread).
Defined.


Lemma organize_block_confined_witness :
  helper_block ∈ @extract_code_blocks sample_runtime helper_chat ∧
  @organize_block sample_runtime (init (chars "out")) helper_block empty_fs =
    ((@organize_block sample_runtime (init (chars "out")) helper_block empty_fs).1, Return ()) ∧
  ∃ sub filename,
    (sub ∈ [[chars "utils"]; [chars "models"]; [chars "services"];
            [chars "tests"]; [chars "config"]] ∨
     sub = [chars "uncategorized"; language helper_block]) ∧
    files (@organize_block sample_runtime (init (chars "out")) helper_block empty_fs).1 !!
      ((path_of (chars "out")).1,
       (path_of (chars "out")).2 ++ sub ++ [filename])
      = Some (content helper_block).
Proof.
  assert (helper_block ∈ @extract_code_blocks sample_runtime helper_chat)
    as Hin by (vm_compute; by left).
  assert (@organize_block sample_runtime (init (chars "out")) helper_block empty_fs =
    ((@organize_block sample_runtime (init (chars "out")) helper_block empty_fs).1, Return ()))
    as Hrun.
  { assert ((@organize_block sample_runtime (init (chars "out")) helper_block empty_fs).2
              = Return ()) as Hr by (by vm_compute).
    by destruct (organize_block _ _ _) as [fs' r]; simpl in Hr; subst r. }
  split; [done|]. split; [done|].
  apply (@organize_block_confined sample_runtime helper_chat helper_block
           (chars "out") empty_fs _ Hin); [|exact Hrun].
  intros line Hl. vm_compute in Hl.
  repeat (apply elem_of_cons in Hl as [->|Hl]; [by vm_compute|]).
  apply elem_of_nil in Hl. destruct Hl.
Defined.

Lemma determine_category_extracted_witness :
  helper_block ∈ @extract_code_blocks sample_runtime helper_chat ∧
  keyword_category category_words
    (@extract_keywords sample_runtime (content helper_block))
    = Some (chars "utils") ∧
  determine_category (init (chars "out")) helper_block = Return (chars "utils").
Proof.
  assert (helper_block ∈ @extract_code_blocks sample_runtime helper_chat)
    as Hin by (vm_compute; by left).
  split; [done|]. split; [by vm_compute|].
  etrans; [apply (@determine_category_extracted sample_runtime helper_chat
                    (chars "out") helper_block Hin)|by vm_compute].
  intros line Hl. vm_compute in Hl.
  repeat (apply elem_of_cons in Hl as [->|Hl]; [by vm_compute|]).
  by apply elem_of_nil in Hl.
Defined.

Lemma component_patterns_words_witness :
  ∃ ws,
    (chars "models", ws) ∈ category_words ∧
    ∀ text,
      search ignorecase
        (whole_word [plural "model"; plural "schema"; plural "entitie"])
        text = true ↔
      ∃ pre u post w,
        text = pre ++ u ++ post ∧ w ∈ ws ∧ lower u = lower w ∧
        word_before (last pre) = false ∧ word_after post = false.
Proof.
  apply (component_patterns_words (chars "out")).
  right. by left.
Defined.
